(** * Mididuino: parameter randomizer and Euclidean pitch trigger

    A shallow embedding of
    - [hardware/libraries/MD/MDRandomizer.cpp]  (module [MDRandomizer]),
    - [hardware/libraries/Sequencer/PitchEuclid.cpp]  (module [PitchEuclid]),
    with the properties stated about them in the specification.

    Conventions.  The firmware runs on an 8-bit AVR: [uint8_t] values are
    integers reduced modulo 2^8, [uint32_t] values modulo 2^32, and [int] is
    a 16-bit two's-complement integer whose overflow wraps.  Array accesses
    the C++ code performs outside an array have no defined result; the
    embedding returns [None] there.  Calls into the device layer, the GUI and
    the MIDI UART are recorded, in order, in logs carried by the state. *)

From Stdlib Require Import ZArith Lia Btauto.
From stdpp Require Import base numbers option list strings.

Local Open Scope Z_scope.

(** ** Machine integers *)

Definition to_u8 (z : Z) : Z := z mod 2 ^ 8.
Definition to_u32 (z : Z) : Z := z mod 2 ^ 32.

Definition INT_MAX : Z := 2 ^ 15 - 1.
Definition INT_MIN : Z := - 2 ^ 15.

(** conversion to [int], and the result of [int] arithmetic *)
Definition wrap_int (z : Z) : Z := (z + 2 ^ 15) mod 2 ^ 16 - 2 ^ 15.

(** Modelled from the spec: the bit macros [_BV32] and [IS_BIT_SET32] come
    from a helper header that is not among the sources.  The spec speaks of
    32-bit masks and of "each parameter index whose bit is set in the
    selection mask": [_BV32 i] is the 32-bit word with only bit [i] set and
    [IS_BIT_SET32 m i] tests bit [i] of [m]. *)
Definition _BV32 (i : Z) : Z := to_u32 (Z.shiftl 1 i).
Definition IS_BIT_SET32 (m : Z) (i : Z) : bool := negb (Z.land m (_BV32 i) =? 0).

(** Modelled from the spec: [random] is a core library routine that is not
    among the sources.  The spec has the randomizer "add a uniformly random
    integer drawn from the closed interval [-amount, amount]":
    [random howsmall howbig] turns the raw output [raw] of the generator into
    a value of the closed interval [howsmall .. howbig], every value of the
    interval being hit by exactly one raw output in each run of
    [howbig - howsmall + 1] consecutive ones.  On an empty interval, about
    which the spec is silent, the lower bound is returned. *)
Definition random (howsmall howbig : Z) (raw : Z) : Z :=
  if howbig <? howsmall then howsmall
  else howsmall + raw mod (howbig - howsmall + 1).

Module MDRandomizer.

(** *** The undo stack *)

(** Modelled from the spec: the class of [undoStack] is declared in a header
    that is not among the sources.  The spec's data model reads "UndoSlot:
    holds at most one prior snapshot of a ParamVector; pushing overwrites the
    slot; popping restores and clears it. Lifecycle: reset whenever the
    active track changes."  [pop] returns the snapshot to copy into the
    target together with the emptied slot, or [None] when there is no
    snapshot (the C++ method returns [false] and leaves its target alone). *)
Definition UndoSlot : Type := option (list Z).

Definition reset (s : UndoSlot) : UndoSlot := None.
Definition push (snapshot : list Z) (s : UndoSlot) : UndoSlot := Some snapshot.
Definition pop (s : UndoSlot) : option (list Z * UndoSlot) :=
  match s with
  | Some snapshot => Some (snapshot, None)
  | None => None
  end.

(** *** The parameter groups *)

(** The 24 parameters of a machine, by the names the group table uses. *)
Inductive model_param : Set :=
| MODEL_P1 | MODEL_P2 | MODEL_P3 | MODEL_P4
| MODEL_P5 | MODEL_P6 | MODEL_P7 | MODEL_P8
| MODEL_AMD | MODEL_AMF | MODEL_EQF | MODEL_EQG
| MODEL_FLTF | MODEL_FLTW | MODEL_FLTQ | MODEL_SRR
| MODEL_DIST | MODEL_VOL | MODEL_PAN | MODEL_DEL
| MODEL_REV | MODEL_LFOS | MODEL_LFOD | MODEL_LFOM.

Inductive GuiLine : Set := LINE1 | LINE2.

(** calls made on the display *)
Inductive GuiCall : Set :=
| setLine (line : GuiLine)
| flash_p_string_fill (s : string).

(** The randomizer together with the globals it works on. *)
Record MDState : Type := mkMDState {
  track : nat;                          (* uint8_t track *)
  machines : list (list Z);             (* MD.kit.machines[t].params, 24 bytes each *)
  undoStack : UndoSlot;
  setTrackParam_log : list (nat * nat * Z);  (* MD.setTrackParam (track, param, value) *)
  gui_log : list GuiCall
}.

Definition with_track (t : nat) (st : MDState) : MDState :=
  mkMDState t (machines st) (undoStack st) (setTrackParam_log st) (gui_log st).
Definition with_machines (ms : list (list Z)) (st : MDState) : MDState :=
  mkMDState (track st) ms (undoStack st) (setTrackParam_log st) (gui_log st).
Definition with_undoStack (s : UndoSlot) (st : MDState) : MDState :=
  mkMDState (track st) (machines st) s (setTrackParam_log st) (gui_log st).
Definition with_setTrackParam_log (l : list (nat * nat * Z)) (st : MDState) : MDState :=
  mkMDState (track st) (machines st) (undoStack st) l (gui_log st).
Definition gui_call (c : GuiCall) (st : MDState) : MDState :=
  mkMDState (track st) (machines st) (undoStack st) (setTrackParam_log st)
            (gui_log st ++ [c]).

(** the parameter vector of the current track, [MD.kit.machines[track].params] *)
Definition params (st : MDState) : option (list Z) := machines st !! track st.

Section Randomizer.

(** The values of the [MODEL_*] constants are defined in a header that is not
    among the sources; the development is parametric in them. *)
Variable param_index : model_param -> Z.

Local Notation "'BV' p" := (_BV32 (param_index p)) (at level 30).
Local Infix ".|" := Z.lor (at level 50, left associativity).

Definition paramSelectMask : list Z := [
  (* SELECT_FILTER *)
  BV MODEL_FLTF .| BV MODEL_FLTW .| BV MODEL_FLTQ;
  (* SELECT_AMD *)
  BV MODEL_AMD .| BV MODEL_AMF;
  (* SELECT_EQ *)
  BV MODEL_EQF .| BV MODEL_EQG;
  (* SELECT_EFFECT *)
  BV MODEL_AMD .| BV MODEL_AMF .| BV MODEL_EQF .| BV MODEL_EQG .|
    BV MODEL_FLTF .| BV MODEL_FLTW .| BV MODEL_FLTQ;
  (* SELECT_LOWSYN *)
  BV MODEL_P5 .| BV MODEL_P6 .| BV MODEL_P7 .| BV MODEL_P8;
  (* SELECT_UPSYN *)
  BV MODEL_P2 .| BV MODEL_P3 .| BV MODEL_P4;
  (* SELECT_SYN *)
  BV MODEL_P2 .| BV MODEL_P3 .| BV MODEL_P4 .| BV MODEL_P5 .|
    BV MODEL_P6 .| BV MODEL_P7 .| BV MODEL_P8;
  (* SELECT_LFO *)
  BV MODEL_LFOS .| BV MODEL_LFOD .| BV MODEL_LFOM;
  (* SELECT_SENDS *)
  BV MODEL_DEL .| BV MODEL_REV;
  (* SELECT_DIST *)
  BV MODEL_SRR .| BV MODEL_DIST;
  (* SELECT_FX_LOWSYN *)
  BV MODEL_AMD .| BV MODEL_AMF .| BV MODEL_EQF .| BV MODEL_EQG .|
    BV MODEL_FLTF .| BV MODEL_FLTW .| BV MODEL_FLTQ .|
    BV MODEL_P5 .| BV MODEL_P6 .| BV MODEL_P7 .| BV MODEL_P8;
  (* SELECT_FX_SYN *)
  BV MODEL_AMD .| BV MODEL_AMF .| BV MODEL_EQF .| BV MODEL_EQG .|
    BV MODEL_FLTF .| BV MODEL_FLTW .| BV MODEL_FLTQ .|
    BV MODEL_P2 .| BV MODEL_P3 .| BV MODEL_P4 .|
    BV MODEL_P5 .| BV MODEL_P6 .| BV MODEL_P7 .| BV MODEL_P8;
  (* SELECT_ALL *)
  BV MODEL_AMD .| BV MODEL_AMF .| BV MODEL_EQF .| BV MODEL_EQG .|
    BV MODEL_FLTF .| BV MODEL_FLTW .| BV MODEL_FLTQ .| BV MODEL_SRR .|
    BV MODEL_P1 .| BV MODEL_P2 .| BV MODEL_P3 .| BV MODEL_P4 .|
    BV MODEL_P5 .| BV MODEL_P6 .| BV MODEL_P7 .| BV MODEL_P8 .|
    BV MODEL_DIST .| BV MODEL_VOL .| BV MODEL_PAN .| BV MODEL_DEL .|
    BV MODEL_REV .| BV MODEL_LFOS .| BV MODEL_LFOD .| BV MODEL_LFOM
].

(** *** Operations *)

Definition setTrack (_track : nat) (st : MDState) : MDState :=
  let st := with_track _track st in
  with_undoStack (reset (undoStack st)) st.

(** The body of the loop of [randomize] for one selected parameter: the new
    value of a parameter that held [old], [raw] being what the generator
    yields for this call of [random]. *)
Definition randomize_param (amount : Z) (old : Z) (raw : Z) : Z :=
  let param := old in
  let rand := wrap_int (random (wrap_int (- amount)) amount raw) in
  let param := wrap_int (param + rand) in
  let param := if 127 <? param then 127 else param in
  let param := if param <? 0 then 0 else param in
  param.

(** One iteration of the loop, on the vector of the current track and the
    log of [MD.setTrackParam]. *)
Definition randomize_iter (rnd : nat -> Z) (amount : Z) (trackMask : Z) (t : nat)
    (acc : list Z * list (nat * nat * Z)) (i : nat) : list Z * list (nat * nat * Z) :=
  if IS_BIT_SET32 trackMask (Z.of_nat i) then
    let param := randomize_param amount (acc.1 !!! i) (rnd i) in
    (<[i := to_u8 param]> acc.1, acc.2 ++ [(t, i, to_u8 param)])
  else acc.

(** [randomize amount mask]; [rnd i] is the raw generator output consumed by
    the call of [random] in iteration [i] of the loop.  The table is read
    before [amount] is tested, and the vector of the current track is read
    by [push]. *)
Definition randomize (rnd : nat -> Z) (amount : Z) (mask : nat) (st : MDState)
    : option MDState :=
  trackMask ← paramSelectMask !! mask;
  if amount =? 0 then Some st
  else
    ps ← params st;
    let st := with_undoStack (push ps (undoStack st)) st in
    let '(ps', log') :=
      foldl (randomize_iter rnd amount trackMask (track st))
            (ps, setTrackParam_log st) (seq 0 24) in
    Some (with_setTrackParam_log log' (with_machines (<[track st := ps']> (machines st)) st)).

(** the loop of [undo] that sends the 24 restored values to the device *)
Definition send_all (t : nat) (ps : list Z) (log : list (nat * nat * Z))
    : list (nat * nat * Z) :=
  foldl (fun log i => log ++ [(t, i, ps !!! i)]) log (seq 0 24).

Definition undo (st : MDState) : option MDState :=
  let st := gui_call (setLine LINE1) st in
  match pop (undoStack st) with
  | Some (snapshot, s) =>
      _ ← params st;
      let st := with_undoStack s (with_machines (<[track st := snapshot]> (machines st)) st) in
      let st := gui_call (flash_p_string_fill "UNDO") st in
      ps ← params st;
      Some (with_setTrackParam_log (send_all (track st) ps (setTrackParam_log st)) st)
  | None =>
      Some (gui_call (flash_p_string_fill "UNDO XXX") st)
  end.

(** what the loop has made of the parameter at index [j] once the
    iterations [0 .. n-1] are done *)
Definition randomized_upto (rnd : nat -> Z) (amount trackMask : Z) (n j : nat) (old : Z) : Z :=
  if bool_decide (j < n)%nat && IS_BIT_SET32 trackMask (Z.of_nat j)
  then to_u8 (randomize_param amount old (rnd j))
  else old.

(** a run of [randomize] calls, each with its generator outputs, its amount
    and its group *)
Definition randomize_calls (calls : list ((nat -> Z) * Z * nat)) (st : MDState)
    : option MDState :=
  foldl (fun acc c => st ← acc; randomize c.1.1 c.1.2 c.2 st) (Some st) calls.

End Randomizer.

(** [selectNames], the names shown for the groups, in the order of the table *)
Definition selectNames : list string := [
  "FILTER";
  "AMD   ";
  "EQ    ";
  "EFFECT";
  "LOWSYN";
  "UP SYN";
  "SYN   ";
  "LFO   ";
  "SENDS ";
  "DIST  ";
  "FX LOW";
  "FX SYN";
  "ALL   "
]%string.

(** *** A kit to run the operations on *)

(** A numbering of the parameters with which to instantiate the table in
    examples: the order in which the machine lists them, the eight synthesis
    parameters first, then the effects, then the routing. *)
Definition md_param_index (p : model_param) : Z :=
  match p with
  | MODEL_P1 => 0 | MODEL_P2 => 1 | MODEL_P3 => 2 | MODEL_P4 => 3
  | MODEL_P5 => 4 | MODEL_P6 => 5 | MODEL_P7 => 6 | MODEL_P8 => 7
  | MODEL_AMD => 8 | MODEL_AMF => 9 | MODEL_EQF => 10 | MODEL_EQG => 11
  | MODEL_FLTF => 12 | MODEL_FLTW => 13 | MODEL_FLTQ => 14 | MODEL_SRR => 15
  | MODEL_DIST => 16 | MODEL_VOL => 17 | MODEL_PAN => 18 | MODEL_DEL => 19
  | MODEL_REV => 20 | MODEL_LFOS => 21 | MODEL_LFOD => 22 | MODEL_LFOM => 23
  end.

(** the parameters in that order *)
Definition md_params : list model_param :=
  [MODEL_P1; MODEL_P2; MODEL_P3; MODEL_P4; MODEL_P5; MODEL_P6; MODEL_P7; MODEL_P8;
   MODEL_AMD; MODEL_AMF; MODEL_EQF; MODEL_EQG; MODEL_FLTF; MODEL_FLTW; MODEL_FLTQ;
   MODEL_SRR; MODEL_DIST; MODEL_VOL; MODEL_PAN; MODEL_DEL; MODEL_REV; MODEL_LFOS;
   MODEL_LFOD; MODEL_LFOM].

Definition demo_vector : list Z :=
  [64; 0; 127; 10; 20; 30; 40; 50; 60; 70; 80; 90;
   100; 110; 120; 125; 3; 127; 64; 0; 0; 64; 32; 16].

(** three tracks, the second one current, nothing to undo, nothing sent *)
Definition demo_state : MDState :=
  mkMDState 1 [replicate 24 0; demo_vector; replicate 24 127] None [] [].

(** generator outputs for the 24 iterations of the loop *)
Definition demo_rnd (i : nat) : Z := 13 * Z.of_nat i + 5.

(** a kit whose current vector holds bytes above 127 *)
Definition wild_vector : list Z :=
  [200; 255; 128; 0; 127; 64; 250; 130; 1; 2; 3; 4;
   180; 190; 210; 220; 129; 131; 133; 135; 137; 139; 141; 143].

Definition wild_state : MDState :=
  mkMDState 0 [wild_vector; demo_vector] (Some demo_vector) [(0%nat, 3%nat, 0)] [].

End MDRandomizer.

Module PitchEuclid.

(** what the trigger sends on the MIDI UART *)
Inductive MidiEvent : Set :=
| sendNoteOn (channel pitch velocity : Z)
| sendNoteOff (channel pitch velocity : Z).

(** The fields of a [PitchEuclid] the tick handler works on, the two
    function-static variables of [on16Callback] ([lastPitch], [lastLength]),
    which live as long as the program, and the log of the UART.  [pitches] is
    the pitch buffer, a byte array whose capacity is the length of the list. *)
Record State : Type := mkState {
  octaves : Z;
  noteLength : Z;
  pitches : list Z;
  pitches_len : Z;
  pitches_idx : Z;
  mdTrack : Z;
  muted : bool;
  basePitch : Z;
  lastPitch : Z;
  lastLength : Z;
  midi_log : list MidiEvent
}.

Definition set_lastLength (v : Z) (st : State) : State :=
  mkState (octaves st) (noteLength st) (pitches st) (pitches_len st) (pitches_idx st)
          (mdTrack st) (muted st) (basePitch st) (lastPitch st) v (midi_log st).
Definition set_lastPitch (v : Z) (st : State) : State :=
  mkState (octaves st) (noteLength st) (pitches st) (pitches_len st) (pitches_idx st)
          (mdTrack st) (muted st) (basePitch st) v (lastLength st) (midi_log st).
Definition set_pitches_idx (v : Z) (st : State) : State :=
  mkState (octaves st) (noteLength st) (pitches st) (pitches_len st) v
          (mdTrack st) (muted st) (basePitch st) (lastPitch st) (lastLength st) (midi_log st).
Definition set_pitches_len (v : Z) (st : State) : State :=
  mkState (octaves st) (noteLength st) (pitches st) v (pitches_idx st)
          (mdTrack st) (muted st) (basePitch st) (lastPitch st) (lastLength st) (midi_log st).
Definition set_pitches (v : list Z) (st : State) : State :=
  mkState (octaves st) (noteLength st) v (pitches_len st) (pitches_idx st)
          (mdTrack st) (muted st) (basePitch st) (lastPitch st) (lastLength st) (midi_log st).
Definition set_noteLength (v : Z) (st : State) : State :=
  mkState (octaves st) v (pitches st) (pitches_len st) (pitches_idx st)
          (mdTrack st) (muted st) (basePitch st) (lastPitch st) (lastLength st) (midi_log st).
Definition uart_send (e : MidiEvent) (st : State) : State :=
  mkState (octaves st) (noteLength st) (pitches st) (pitches_len st) (pitches_idx st)
          (mdTrack st) (muted st) (basePitch st) (lastPitch st) (lastLength st)
          (midi_log st ++ [e]).

(** [randomizePitches]: [draw i] is the pitch [randomScalePitch] returns for
    slot [i] (the scale tables are not among the sources).  Filling more
    slots than the buffer has is undefined. *)
Definition randomizePitches (draw : nat -> Z) (st : State) : option State :=
  if bool_decide (Z.to_nat (pitches_len st) <= length (pitches st))%nat then
    Some (set_pitches
            (foldl (fun ps i => <[i := to_u8 (draw i)]> ps) (pitches st)
                   (seq 0 (Z.to_nat (pitches_len st))))
            st)
  else None.

Definition setPitchLength (draw : nat -> Z) (len : Z) (st : State) : option State :=
  let st := set_pitches_len len st in
  randomizePitches draw st.

(** The constructor, on a pitch buffer [buffer] and a [basePitch] it leaves
    as it finds them. *)
Definition construct (draw : nat -> Z) (buffer : list Z) (base : Z) : option State :=
  setPitchLength draw 4
    (mkState 0 1 buffer 0 0 0 false base 255 0 []).

Section Trigger.

(** [track.isHit]: whether a step of the clock is a hit of the Euclidean
    pattern (the pattern class is not among the sources). *)
Variable isHit : Z -> bool.

(** [on16Callback counter], [div16th_counter] being the value of
    [MidiClock.div16th_counter] at the call.  The read of [pitches] outside
    the buffer and the remainder by zero are undefined. *)
Definition on16Callback (div16th_counter : Z) (counter : Z) (st : State)
    : option State :=
  let st :=
    if 0 <? lastLength st then set_lastLength (to_u8 (lastLength st - 1)) st
    else st in
  let st :=
    if lastPitch st <=? 127 then
      if (noteLength st =? 0) || (lastLength st =? 0) then
        set_lastPitch 255 (uart_send (sendNoteOff (mdTrack st) (lastPitch st) 0) st)
      else st
    else st in
  (* if noteLength == 0 then the pitch euclid is disabled *)
  if noteLength st =? 0 then Some st
  else if isHit div16th_counter then
    p ← pitches st !! Z.to_nat (pitches_idx st);
    let pitch := to_u8 (basePitch st + p) in
    let st :=
      if lastPitch st <=? 127 then
        set_lastPitch 255 (uart_send (sendNoteOff (mdTrack st) (lastPitch st) 0) st)
      else st in
    let st :=
      if pitch <=? 127 then
        if negb (muted st) then
          set_lastPitch pitch
            (set_lastLength (noteLength st)
               (uart_send (sendNoteOn (mdTrack st) pitch 100) st))
        else st
      else st in
    if pitches_len st =? 0 then None
    else Some (set_pitches_idx (to_u8 (Z.rem (pitches_idx st + 1) (pitches_len st))) st)
  else Some st.

(** successive ticks, each given as [(div16th_counter, counter)] *)
Fixpoint run_ticks (ticks : list (Z * Z)) (st : State) : option State :=
  match ticks with
  | [] => Some st
  | t :: ticks' => st' ← on16Callback t.1 t.2 st; run_ticks ticks' st'
  end.

End Trigger.

(** *** Notes left sounding by a stream of events *)

Definition note_step (sounding : list (Z * Z)) (e : MidiEvent) : list (Z * Z) :=
  match e with
  | sendNoteOn ch p _ => (ch, p) :: sounding
  | sendNoteOff ch p _ => filter (fun n => n <> (ch, p)) sounding
  end.

Definition sounding_after (evs : list MidiEvent) (sounding : list (Z * Z)) : list (Z * Z) :=
  foldl note_step sounding evs.

(** the note the handler itself keeps track of *)
Definition own_note (st : State) : list (Z * Z) :=
  if lastPitch st <=? 127 then [(mdTrack st, lastPitch st)] else [].

Definition is_note_on (e : MidiEvent) : bool :=
  match e with sendNoteOn _ _ _ => true | sendNoteOff _ _ _ => false end.

Definition set_muted (v : bool) (st : State) : State :=
  mkState (octaves st) (noteLength st) (pitches st) (pitches_len st) (pitches_idx st)
          (mdTrack st) v (basePitch st) (lastPitch st) (lastLength st) (midi_log st).

(** an event as the UART interface wants it on channel [ch]: a pitch within
    0..127, velocity 100 for a note-on and 0 for a note-off *)
Definition valid_event (ch : Z) (e : MidiEvent) : Prop :=
  match e with
  | sendNoteOn c p v => c = ch /\ 0 <= p <= 127 /\ v = 100
  | sendNoteOff c p v => c = ch /\ 0 <= p <= 127 /\ v = 0
  end.

(** two triggers that hold the same pitch sequence, cursor, base pitch and
    note length *)
Definition same_sequence (st1 st2 : State) : Prop :=
  noteLength st1 = noteLength st2
  /\ pitches st1 = pitches st2
  /\ pitches_len st1 = pitches_len st2
  /\ pitches_idx st1 = pitches_idx st2
  /\ basePitch st1 = basePitch st2.

(** the cursor after a tick, as the pitch sequence alone decides it *)
Definition cursor_after (hit : bool) (st : State) : option Z :=
  if noteLength st =? 0 then Some (pitches_idx st)
  else if hit then
    _ ← pitches st !! Z.to_nat (pitches_idx st);
    if pitches_len st =? 0 then None
    else Some (to_u8 (Z.rem (pitches_idx st + 1) (pitches_len st)))
  else Some (pitches_idx st).

(** *** A trigger to run the handler on *)

(** a pattern in which every step is a hit *)
Definition every_step (c : Z) : bool := true.

(** a major seventh chord, for the draws of the constructor *)
Definition demo_draw (i : nat) : Z := nth i [0; 4; 7; 11] 0.

(** the trigger as constructed on an eight-byte buffer, with base pitch 60 *)
Definition fresh : State :=
  mkState 0 1 [0; 4; 7; 11; 0; 0; 0; 0] 4 0 0 false 60 255 0 [].

(** after a first hit: pitch 60 is sounding for one tick *)
Definition playing : State :=
  mkState 0 1 [0; 4; 7; 11; 0; 0; 0; 0] 4 1 0 false 60 60 1
          [sendNoteOn 0 60 100].

(** a pattern that hits on the multiples of four *)
Definition every_fourth (c : Z) : bool := c mod 4 =? 0.

(** after a second hit: 60 was released, 64 is sounding *)
Definition retriggered : State :=
  mkState 0 1 [0; 4; 7; 11; 0; 0; 0; 0] 4 2 0 false 60 64 1
          [sendNoteOn 0 60 100; sendNoteOff 0 60 0; sendNoteOn 0 64 100].

End PitchEuclid.

(** * Properties *)

(** ** Machine integers *)

Lemma wrap_int_id z : INT_MIN <= z <= INT_MAX -> wrap_int z = z.
Proof.
  unfold wrap_int, INT_MIN, INT_MAX. intros H.
  rewrite Z.mod_small; lia.
Qed.

Lemma to_u8_id z : 0 <= z < 256 -> to_u8 z = z.
Proof. unfold to_u8. intros H. apply Z.mod_small. lia. Qed.

Lemma to_u8_range z : 0 <= to_u8 z < 256.
Proof. unfold to_u8. apply Z.mod_pos_bound. lia. Qed.

Lemma wrap_int_range z : INT_MIN <= wrap_int z <= INT_MAX.
Proof.
  unfold wrap_int, INT_MIN, INT_MAX.
  pose proof (Z.mod_pos_bound (z + 2 ^ 15) (2 ^ 16) ltac:(lia)). lia.
Qed.

(** ** The generator *)

Lemma random_in_interval lo hi raw :
  lo <= hi -> lo <= random lo hi raw <= hi.
Proof.
  intros H. unfold random.
  destruct (hi <? lo) eqn:E; [apply Z.ltb_lt in E; lia|].
  pose proof (Z.mod_pos_bound raw (hi - lo + 1) ltac:(lia)). lia.
Qed.

Lemma random_hits lo hi d :
  lo <= d <= hi -> random lo hi (d - lo) = d.
Proof.
  intros H. unfold random.
  destruct (hi <? lo) eqn:E; [apply Z.ltb_lt in E; lia|].
  rewrite Z.mod_small by lia. lia.
Qed.

Lemma random_periodic lo hi raw :
  lo <= hi -> random lo hi (raw + (hi - lo + 1)) = random lo hi raw.
Proof.
  intros H. unfold random.
  destruct (hi <? lo) eqn:E; [reflexivity|].
  replace (raw + (hi - lo + 1)) with (raw + 1 * (hi - lo + 1)) by lia.
  rewrite Z.mod_add by lia. reflexivity.
Qed.

Lemma random_one_per_period lo hi r1 r2 :
  lo <= hi ->
  0 <= r1 < hi - lo + 1 -> 0 <= r2 < hi - lo + 1 ->
  random lo hi r1 = random lo hi r2 -> r1 = r2.
Proof.
  intros H H1 H2. unfold random.
  destruct (hi <? lo) eqn:E; [apply Z.ltb_lt in E; lia|].
  rewrite !Z.mod_small by lia. lia.
Qed.

(** ** The parameter randomizer *)

Section RandomizerFacts.

Import MDRandomizer.

Variable param_index : model_param -> Z.

Local Abbreviation paramSelectMask := (paramSelectMask param_index).
Local Abbreviation randomize := (randomize param_index).
Local Abbreviation randomize_calls := (randomize_calls param_index).

Lemma paramSelectMask_length : length paramSelectMask = 13%nat.
Proof. reflexivity. Qed.

Lemma paramSelectMask_valid (mask : nat) :
  (mask < 13)%nat -> exists trackMask, paramSelectMask !! mask = Some trackMask.
Proof.
  intros H. apply lookup_lt_is_Some. rewrite paramSelectMask_length. exact H.
Qed.

Lemma randomize_param_range amount old raw :
  0 <= randomize_param amount old raw <= 127.
Proof.
  unfold randomize_param.
  destruct (127 <? wrap_int _) eqn:Hhi.
  - simpl. lia.
  - apply Z.ltb_ge in Hhi.
    destruct (wrap_int _ <? 0) eqn:Hlo; [lia|].
    apply Z.ltb_ge in Hlo. lia.
Qed.

Lemma randomize_loop_lookup rnd amount trackMask t ps log n j :
  (foldl (randomize_iter rnd amount trackMask t) (ps, log) (seq 0 n)).1 !! j
  = randomized_upto rnd amount trackMask n j <$> ps !! j.
Proof.
  induction n as [|n IH].
  - simpl. unfold randomized_upto. simpl. destruct (ps !! j); reflexivity.
  - rewrite seq_S, foldl_app. simpl.
    set (acc := foldl _ _ (seq 0 n)) in *.
    unfold randomize_iter at 1.
    unfold randomized_upto in *.
    destruct (IS_BIT_SET32 trackMask (Z.of_nat n)) eqn:Hbit.
    + simpl. destruct (decide (j = n)) as [->|Hne].
      * rewrite Hbit, bool_decide_eq_true_2 by lia. simpl.
        rewrite bool_decide_eq_false_2 in IH by lia. simpl in IH.
        destruct (ps !! n) as [old|] eqn:Hps; simpl in *.
        -- rewrite list_lookup_insert_eq by (apply lookup_lt_is_Some; eauto).
           rewrite list_lookup_total_alt, IH. reflexivity.
        -- rewrite list_insert_ge by (apply lookup_ge_None; exact IH). exact IH.
      * rewrite list_lookup_insert_ne by congruence. rewrite IH.
        destruct (ps !! j); [|reflexivity]. simpl.
        destruct (decide (j < n)%nat).
        -- rewrite !bool_decide_eq_true_2 by lia. reflexivity.
        -- rewrite !bool_decide_eq_false_2 by lia. reflexivity.
    + rewrite IH. destruct (ps !! j); [|reflexivity]. simpl.
      destruct (decide (j = n)) as [->|Hne].
      * rewrite Hbit, !andb_false_r. reflexivity.
      * destruct (decide (j < n)%nat).
        -- rewrite !bool_decide_eq_true_2 by lia. reflexivity.
        -- rewrite !bool_decide_eq_false_2 by lia. reflexivity.
Qed.

Lemma randomize_loop_length rnd amount trackMask t ps log n :
  length (foldl (randomize_iter rnd amount trackMask t) (ps, log) (seq 0 n)).1
  = length ps.
Proof.
  induction n as [|n IH]; [reflexivity|].
  rewrite seq_S, foldl_app. simpl.
  unfold randomize_iter at 1.
  destruct (IS_BIT_SET32 _ _); simpl; [rewrite length_insert|]; exact IH.
Qed.

Lemma send_all_spec t ps log :
  send_all t ps log = log ++ map (fun i => (t, i, ps !!! i)) (seq 0 24).
Proof.
  unfold send_all. generalize (seq 0 24). intros l. revert log.
  induction l as [|i l IH]; intros log; simpl.
  - rewrite app_nil_r. reflexivity.
  - rewrite IH, <- app_assoc. reflexivity.
Qed.

(** [randomize] with a non-zero amount: the snapshot taken, the vector
    rewritten parameter by parameter, nothing else touched but the log. *)
Lemma randomize_nonzero rnd amount mask trackMask st ps :
  paramSelectMask !! mask = Some trackMask ->
  amount <> 0 ->
  params st = Some ps ->
  exists ps' log',
    randomize rnd amount mask st
      = Some (mkMDState (track st) (<[track st := ps']> (machines st)) (Some ps)
                        log' (gui_log st))
    /\ (forall j, ps' !! j = randomized_upto rnd amount trackMask 24 j <$> ps !! j)
    /\ length ps' = length ps.
Proof.
  intros Hmask Hamount Hps.
  unfold randomize. rewrite Hmask. cbn -[foldl].
  destruct (amount =? 0) eqn:E; [apply Z.eqb_eq in E; contradiction|].
  rewrite Hps. cbn -[foldl].
  pose proof (randomize_loop_lookup rnd amount trackMask (track st) ps
                (setTrackParam_log st) 24) as Hlook.
  pose proof (randomize_loop_length rnd amount trackMask (track st) ps
                (setTrackParam_log st) 24) as Hlen.
  destruct (foldl _ _ (seq 0 24)) as [ps' log'].
  exists ps', log'. split; [reflexivity|]. split; assumption.
Qed.

Lemma params_after_write st ps ps' log s g :
  params st = Some ps ->
  params (mkMDState (track st) (<[track st := ps']> (machines st)) s log g) = Some ps'.
Proof.
  unfold params. simpl. intros H.
  apply list_lookup_insert_eq. apply lookup_lt_is_Some. eauto.
Qed.

(** [undo] on a slot that holds a snapshot *)
Lemma undo_snapshot st ps snapshot :
  undoStack st = Some snapshot ->
  params st = Some ps ->
  undo st
  = Some (mkMDState (track st) (<[track st := snapshot]> (machines st)) None
            (setTrackParam_log st
               ++ map (fun i => (track st, i, snapshot !!! i)) (seq 0 24))
            (gui_log st ++ [setLine LINE1; flash_p_string_fill "UNDO"])).
Proof.
  intros Hslot Hps. unfold undo. simpl. rewrite Hslot. simpl.
  unfold params in *. simpl. rewrite Hps. simpl.
  rewrite list_lookup_insert_eq by (apply lookup_lt_is_Some; eauto). simpl.
  rewrite send_all_spec. unfold gui_call. simpl.
  rewrite <- app_assoc. reflexivity.
Qed.

(** [undo] on an empty slot *)
Lemma undo_empty st :
  undoStack st = None ->
  undo st
  = Some (mkMDState (track st) (machines st) None (setTrackParam_log st)
            (gui_log st ++ [setLine LINE1; flash_p_string_fill "UNDO XXX"])).
Proof.
  intros Hslot. unfold undo. simpl. rewrite Hslot. simpl.
  unfold gui_call. simpl. rewrite Hslot, <- app_assoc. reflexivity.
Qed.

Lemma restore_machines (ms : list (list Z)) t ps ps' :
  ms !! t = Some ps -> <[t := ps]> (<[t := ps']> ms) = ms.
Proof.
  intros H. rewrite list_insert_insert_eq. apply list_insert_id. exact H.
Qed.

(** the loop body as the sum of the old value and the drawn delta, clamped *)
Lemma randomize_param_delta amount old raw :
  0 < amount <= INT_MAX ->
  randomize_param amount old raw
  = Z.max 0 (Z.min 127 (wrap_int (old + random (- amount) amount raw))).
Proof.
  intros Hamount. unfold randomize_param.
  assert (Hneg : wrap_int (- amount) = - amount)
    by (apply wrap_int_id; unfold INT_MIN, INT_MAX in *; lia).
  rewrite Hneg.
  pose proof (random_in_interval (- amount) amount raw ltac:(lia)) as Hd.
  rewrite (wrap_int_id (random _ _ _))
    by (unfold INT_MIN, INT_MAX in *; lia).
  destruct (127 <? wrap_int _) eqn:Hhi.
  - apply Z.ltb_lt in Hhi. simpl. lia.
  - apply Z.ltb_ge in Hhi.
    destruct (wrap_int _ <? 0) eqn:Hlo.
    + apply Z.ltb_lt in Hlo. lia.
    + apply Z.ltb_ge in Hlo. lia.
Qed.

(** no overflow for the amounts and bytes met in practice *)
Lemma randomize_sum_exact amount old d :
  0 <= old <= 255 -> 0 < amount <= INT_MAX - 255 -> - amount <= d <= amount ->
  wrap_int (old + d) = old + d.
Proof.
  intros Hold Hamount Hd. apply wrap_int_id.
  unfold INT_MIN, INT_MAX in *. lia.
Qed.

(** the parameter at a selected index after [randomize]; with amount 0 the
    vector is left as it is, which for a parameter within 0..127 is the same
    as adding the only delta of the interval, 0 *)
Lemma randomize_selected rnd amount mask trackMask st ps i old :
  0 <= amount <= INT_MAX ->
  (amount = 0 -> 0 <= old <= 127) ->
  paramSelectMask !! mask = Some trackMask ->
  params st = Some ps ->
  ps !! i = Some old ->
  (i < 24)%nat ->
  IS_BIT_SET32 trackMask (Z.of_nat i) = true ->
  exists st' ps',
    randomize rnd amount mask st = Some st'
    /\ params st' = Some ps'
    /\ ps' !! i
       = Some (Z.max 0 (Z.min 127 (wrap_int (old + random (- amount) amount (rnd i))))).
Proof.
  intros Hamount Hzero Hmask Hps Hold Hi Hbit.
  destruct (decide (amount = 0)) as [->|Hnz].
  - exists st, ps. unfold MDRandomizer.randomize. rewrite Hmask. simpl.
    split; [reflexivity|]. split; [exact Hps|].
    rewrite Hold. f_equal.
    specialize (Hzero eq_refl).
    unfold random. simpl. rewrite Z.mod_1_r, Z.add_0_r.
    rewrite wrap_int_id by (unfold INT_MIN, INT_MAX; lia). lia.
  - destruct (randomize_nonzero rnd amount mask trackMask st ps Hmask Hnz Hps)
      as (ps' & log' & Hrand & Hlook & _).
    eexists. exists ps'. split; [exact Hrand|].
    split; [eapply params_after_write; exact Hps|].
    rewrite Hlook, Hold. simpl. unfold randomized_upto.
    rewrite Hbit, bool_decide_eq_true_2 by exact Hi. simpl.
    rewrite randomize_param_delta by lia.
    rewrite to_u8_id by lia. reflexivity.
Qed.

Lemma randomize_calls_snoc calls c st :
  randomize_calls (calls ++ [c]) st
  = (randomize_calls calls st ≫= randomize c.1.1 c.1.2 c.2).
Proof. unfold MDRandomizer.randomize_calls. rewrite foldl_app. reflexivity. Qed.

(** C1: one [randomize] with a positive amount and a group of the table,
    followed by [undo] on the same track, gives back the parameter vector
    (indeed the whole kit) as it was before the [randomize]; the undo flashes
    "UNDO", leaves the slot empty and sends the restored values, in order, to
    the device. *)
Theorem randomize_undo_restores rnd amount mask st ps :
  0 < amount ->
  (mask < 13)%nat ->
  params st = Some ps ->
  exists st1 st2,
    randomize rnd amount mask st = Some st1
    /\ undo st1 = Some st2
    /\ track st2 = track st
    /\ params st2 = Some ps
    /\ machines st2 = machines st
    /\ undoStack st2 = None
    /\ gui_log st2 = gui_log st ++ [setLine LINE1; flash_p_string_fill "UNDO"]
    /\ setTrackParam_log st2
       = setTrackParam_log st1 ++ map (fun i => (track st, i, ps !!! i)) (seq 0 24).
Proof.
  intros Hamount Hmask Hps.
  destruct (paramSelectMask_valid mask Hmask) as [trackMask HtrackMask].
  destruct (randomize_nonzero rnd amount mask trackMask st ps HtrackMask
              ltac:(lia) Hps) as (ps' & log' & Hrand & _ & _).
  eexists. eexists. split; [exact Hrand|].
  split.
  - apply undo_snapshot with (ps := ps'); [reflexivity|].
    eapply params_after_write. exact Hps.
  - simpl. unfold params in *. simpl.
    rewrite restore_machines by exact Hps.
    repeat split; try reflexivity. exact Hps.
Qed.

(** C2: whatever the generator yields, a [randomize] with a non-negative
    amount and a group of the table keeps a vector whose entries all lie in
    0..127 within 0..127 (and keeps its length). *)
Theorem randomize_keeps_range rnd amount mask st ps :
  0 <= amount ->
  (mask < 13)%nat ->
  params st = Some ps ->
  length ps = 24%nat ->
  Forall (fun v => 0 <= v <= 127) ps ->
  exists st' ps',
    randomize rnd amount mask st = Some st'
    /\ params st' = Some ps'
    /\ length ps' = 24%nat
    /\ Forall (fun v => 0 <= v <= 127) ps'.
Proof.
  intros Hamount Hmask Hps Hlen Hrange.
  destruct (paramSelectMask_valid mask Hmask) as [trackMask HtrackMask].
  destruct (decide (amount = 0)) as [->|Hnz].
  - exists st, ps. unfold MDRandomizer.randomize. rewrite HtrackMask. simpl.
    repeat split; assumption.
  - destruct (randomize_nonzero rnd amount mask trackMask st ps HtrackMask Hnz Hps)
      as (ps' & log' & Hrand & Hlook & Hlen').
    eexists. exists ps'. split; [exact Hrand|].
    split; [eapply params_after_write; exact Hps|].
    split; [congruence|].
    apply Forall_lookup. intros j v Hj.
    rewrite Hlook in Hj.
    destruct (ps !! j) as [old|] eqn:Hold; simpl in Hj; [|discriminate].
    injection Hj as <-.
    unfold randomized_upto.
    destruct (_ && _).
    + pose proof (randomize_param_range amount old (rnd j)) as Hr.
      rewrite to_u8_id; lia.
    + eapply (proj1 (Forall_lookup _ _) Hrange). exact Hold.
Qed.

(** C3: after two [randomize] calls with positive amounts, one [undo] gives
    back the vector as it was before the second call.  The slot held that
    vector only: it is empty afterwards, so that a further [undo] flashes
    "UNDO XXX" and leaves the kit alone, and the vector from before the first
    call is not kept anywhere. *)
Theorem second_randomize_overwrites_undo rnd1 amount1 mask1 rnd2 amount2 mask2 st ps0 :
  0 < amount1 -> 0 < amount2 ->
  (mask1 < 13)%nat -> (mask2 < 13)%nat ->
  params st = Some ps0 ->
  exists st1 ps1 st2 st3 st4,
    randomize rnd1 amount1 mask1 st = Some st1
    /\ params st1 = Some ps1
    /\ randomize rnd2 amount2 mask2 st1 = Some st2
    /\ undoStack st2 = Some ps1
    /\ undo st2 = Some st3
    /\ params st3 = Some ps1
    /\ machines st3 = machines st1
    /\ undoStack st3 = None
    /\ undo st3 = Some st4
    /\ machines st4 = machines st1
    /\ setTrackParam_log st4 = setTrackParam_log st3
    /\ gui_log st4 = gui_log st3 ++ [setLine LINE1; flash_p_string_fill "UNDO XXX"].
Proof.
  intros Ha1 Ha2 Hm1 Hm2 Hps0.
  destruct (paramSelectMask_valid mask1 Hm1) as [tm1 Htm1].
  destruct (paramSelectMask_valid mask2 Hm2) as [tm2 Htm2].
  destruct (randomize_nonzero rnd1 amount1 mask1 tm1 st ps0 Htm1 ltac:(lia) Hps0)
    as (ps1 & log1 & Hr1 & _ & _).
  set (st1 := mkMDState (track st) (<[track st := ps1]> (machines st)) (Some ps0)
                        log1 (gui_log st)) in *.
  assert (Hps1 : params st1 = Some ps1)
    by (eapply params_after_write; exact Hps0).
  destruct (randomize_nonzero rnd2 amount2 mask2 tm2 st1 ps1 Htm2 ltac:(lia) Hps1)
    as (ps2 & log2 & Hr2 & _ & _).
  set (st2 := mkMDState (track st1) (<[track st1 := ps2]> (machines st1)) (Some ps1)
                        log2 (gui_log st1)) in *.
  assert (Hps2 : params st2 = Some ps2)
    by (eapply params_after_write; exact Hps1).
  pose proof (undo_snapshot st2 ps2 ps1 eq_refl Hps2) as Hu.
  exists st1, ps1, st2. eexists. eexists.
  split; [exact Hr1|]. split; [exact Hps1|]. split; [exact Hr2|].
  split; [reflexivity|]. split; [exact Hu|].
  assert (Hback : <[track st2 := ps1]> (machines st2) = machines st1)
    by (apply restore_machines; exact Hps1).
  unfold params in Hps1. simpl in Hback, Hps1.
  split; [unfold params; simpl; rewrite Hback; exact Hps1|].
  split; [simpl; exact Hback|].
  split; [reflexivity|].
  split; [apply undo_empty; reflexivity|].
  simpl. rewrite Hback. repeat split; reflexivity.
Qed.

(** C6: [undo] on an empty slot flashes "UNDO XXX" and changes nothing else:
    the kit keeps its vectors and nothing is sent to the device. *)
Theorem undo_empty_slot_fails st :
  undoStack st = None ->
  exists st',
    undo st = Some st'
    /\ gui_log st' = gui_log st ++ [setLine LINE1; flash_p_string_fill "UNDO XXX"]
    /\ machines st' = machines st
    /\ params st' = params st
    /\ setTrackParam_log st' = setTrackParam_log st
    /\ track st' = track st
    /\ undoStack st' = None.
Proof.
  intros Hslot. eexists. split; [apply undo_empty; exact Hslot|].
  repeat split; reflexivity.
Qed.

(** C7: [setTrack] empties the undo slot: after any run of [randomize]
    calls, an [undo] that follows a [setTrack] flashes "UNDO XXX", restores
    nothing and sends nothing. *)
Theorem setTrack_clears_undo calls st0 st t :
  randomize_calls calls st0 = Some st ->
  undoStack (setTrack t st) = None
  /\ exists st',
      undo (setTrack t st) = Some st'
      /\ gui_log st' = gui_log st ++ [setLine LINE1; flash_p_string_fill "UNDO XXX"]
      /\ machines st' = machines st
      /\ setTrackParam_log st' = setTrackParam_log st
      /\ track st' = t.
Proof.
  intros _. split; [reflexivity|].
  eexists. split; [apply undo_empty; reflexivity|].
  repeat split; reflexivity.
Qed.

(** C8: [randomize] with amount 0 does nothing, whatever the group: the
    state it returns is the state it was given, with the same vectors, the
    same device log and the same undo slot. *)
Theorem randomize_zero_noop rnd mask st :
  (mask < 13)%nat ->
  randomize rnd 0 mask st = Some st.
Proof.
  intros Hmask.
  destruct (paramSelectMask_valid mask Hmask) as [trackMask HtrackMask].
  unfold MDRandomizer.randomize. rewrite HtrackMask. reflexivity.
Qed.

(** *** The groups of the table *)

Lemma IS_BIT_SET32_lor a b i :
  IS_BIT_SET32 (Z.lor a b) i = IS_BIT_SET32 a i || IS_BIT_SET32 b i.
Proof.
  unfold IS_BIT_SET32. rewrite Z.land_lor_distr_l.
  destruct (Z.eqb_spec (Z.land a (_BV32 i)) 0) as [Ha|Ha],
           (Z.eqb_spec (Z.land b (_BV32 i)) 0) as [Hb|Hb]; simpl.
  - rewrite Ha, Hb. reflexivity.
  - apply negb_true_iff, Z.eqb_neq. intros H. apply Z.lor_eq_0_iff in H. tauto.
  - apply negb_true_iff, Z.eqb_neq. intros H. apply Z.lor_eq_0_iff in H. tauto.
  - apply negb_true_iff, Z.eqb_neq. intros H. apply Z.lor_eq_0_iff in H. tauto.
Qed.

Lemma IS_BIT_SET32_BV i : 0 <= i < 32 -> IS_BIT_SET32 (_BV32 i) i = true.
Proof.
  intros Hi. unfold IS_BIT_SET32. rewrite Z.land_diag.
  apply negb_true_iff, Z.eqb_neq. unfold _BV32, to_u32.
  rewrite Z.shiftl_1_l, Z.mod_small.
  - apply Z.pow_nonzero; lia.
  - split; [apply Z.pow_nonneg; lia|apply Z.pow_lt_mono_r; lia].
Qed.

(** the mask of a group, read off the table *)
Ltac table_entry H := simpl in H; injection H as <-.

(** X1: the aggregate groups are the unions of the groups they are named
    after, whatever the numbering of the parameters: EFFECT selects what
    FILTER, AMD or EQ select, SYN what UPSYN or LOWSYN select, FX_LOWSYN what
    EFFECT or LOWSYN select and FX_SYN what EFFECT or SYN select. *)
Theorem aggregate_groups_are_unions
    mFILTER mAMD mEQ mEFFECT mLOWSYN mUPSYN mSYN mFXLOW mFXSYN (i : Z) :
  paramSelectMask !! 0%nat = Some mFILTER ->
  paramSelectMask !! 1%nat = Some mAMD ->
  paramSelectMask !! 2%nat = Some mEQ ->
  paramSelectMask !! 3%nat = Some mEFFECT ->
  paramSelectMask !! 4%nat = Some mLOWSYN ->
  paramSelectMask !! 5%nat = Some mUPSYN ->
  paramSelectMask !! 6%nat = Some mSYN ->
  paramSelectMask !! 10%nat = Some mFXLOW ->
  paramSelectMask !! 11%nat = Some mFXSYN ->
  IS_BIT_SET32 mEFFECT i
    = IS_BIT_SET32 mFILTER i || IS_BIT_SET32 mAMD i || IS_BIT_SET32 mEQ i
  /\ IS_BIT_SET32 mSYN i = IS_BIT_SET32 mUPSYN i || IS_BIT_SET32 mLOWSYN i
  /\ IS_BIT_SET32 mFXLOW i = IS_BIT_SET32 mEFFECT i || IS_BIT_SET32 mLOWSYN i
  /\ IS_BIT_SET32 mFXSYN i = IS_BIT_SET32 mEFFECT i || IS_BIT_SET32 mSYN i.
Proof.
  intros H0 H1 H2 H3 H4 H5 H6 H10 H11.
  table_entry H0. table_entry H1. table_entry H2. table_entry H3.
  table_entry H4. table_entry H5. table_entry H6. table_entry H10.
  table_entry H11.
  rewrite !IS_BIT_SET32_lor.
  repeat split; btauto.
Qed.

(** X2: whatever the numbering of the parameters, every parameter selected
    by a group of the table is selected by its last group, ALL. *)
Theorem group_within_all mask m mALL (i : Z) :
  paramSelectMask !! mask = Some m ->
  paramSelectMask !! 12%nat = Some mALL ->
  IS_BIT_SET32 m i = true ->
  IS_BIT_SET32 mALL i = true.
Proof.
  intros Hm HALL. table_entry HALL.
  do 13 (destruct mask as [|mask];
         [table_entry Hm; rewrite !IS_BIT_SET32_lor, !orb_true_iff; tauto|]).
  discriminate Hm.
Qed.

(** under a numbering that reaches each of 0..23, the last group selects
    each of the 24 parameters *)
Lemma all_selects_every_parameter mALL (i : nat) :
  (forall j, 0 <= j < 24 -> exists p, param_index p = j) ->
  paramSelectMask !! 12%nat = Some mALL ->
  (i < 24)%nat ->
  IS_BIT_SET32 mALL (Z.of_nat i) = true.
Proof.
  intros Hsurj HALL Hi. table_entry HALL.
  destruct (Hsurj (Z.of_nat i) ltac:(lia)) as [p Hp].
  assert (Hatom : IS_BIT_SET32 (_BV32 (param_index p)) (Z.of_nat i) = true)
    by (rewrite Hp; apply IS_BIT_SET32_BV; lia).
  rewrite !IS_BIT_SET32_lor.
  destruct p; rewrite Hatom; repeat (rewrite ?orb_true_r; simpl); reflexivity.
Qed.

(** *** What [randomize] and [undo] leave alone, and what they send *)

Lemma randomize_loop_log rnd amount trackMask t ps log n :
  (foldl (randomize_iter rnd amount trackMask t) (ps, log) (seq 0 n)).2
  = log ++ map (fun i => (t, i, to_u8 (randomize_param amount (ps !!! i) (rnd i))))
               (filter (fun i => IS_BIT_SET32 trackMask (Z.of_nat i) = true) (seq 0 n)).
Proof.
  induction n as [|n IH].
  - simpl. rewrite app_nil_r. reflexivity.
  - rewrite seq_S, foldl_app, filter_app, map_app. simpl.
    pose proof (randomize_loop_lookup rnd amount trackMask t ps log n n) as Hread.
    set (acc := foldl _ _ (seq 0 n)) in *.
    assert (Hsame : acc.1 !!! n = ps !!! n).
    { rewrite !list_lookup_total_alt, Hread. unfold randomized_upto.
      rewrite bool_decide_eq_false_2 by lia. simpl. destruct (ps !! n); reflexivity. }
    unfold randomize_iter at 1.
    destruct (IS_BIT_SET32 trackMask (Z.of_nat n)) eqn:Hbit.
    + rewrite filter_cons_True, filter_nil by exact Hbit. simpl.
      rewrite IH, Hsame, <- app_assoc. reflexivity.
    + rewrite filter_cons_False, filter_nil by (rewrite Hbit; discriminate). simpl.
      rewrite IH, app_nil_r. reflexivity.
Qed.

(** [randomize] with a non-zero amount, the log included *)
Lemma randomize_nonzero_log rnd amount mask trackMask st ps :
  paramSelectMask !! mask = Some trackMask ->
  amount <> 0 ->
  params st = Some ps ->
  exists ps',
    randomize rnd amount mask st
      = Some (mkMDState (track st) (<[track st := ps']> (machines st)) (Some ps)
                (setTrackParam_log st
                 ++ map (fun i => (track st, i,
                                   to_u8 (randomize_param amount (ps !!! i) (rnd i))))
                        (filter (fun i => IS_BIT_SET32 trackMask (Z.of_nat i) = true)
                                (seq 0 24)))
                (gui_log st))
    /\ (forall j, ps' !! j = randomized_upto rnd amount trackMask 24 j <$> ps !! j)
    /\ length ps' = length ps.
Proof.
  intros Hmask Hamount Hps.
  unfold MDRandomizer.randomize. rewrite Hmask. cbn -[foldl seq].
  destruct (amount =? 0) eqn:E; [apply Z.eqb_eq in E; contradiction|].
  rewrite Hps. cbn -[foldl seq].
  pose proof (randomize_loop_lookup rnd amount trackMask (track st) ps
                (setTrackParam_log st) 24) as Hlook.
  pose proof (randomize_loop_length rnd amount trackMask (track st) ps
                (setTrackParam_log st) 24) as Hlen.
  pose proof (randomize_loop_log rnd amount trackMask (track st) ps
                (setTrackParam_log st) 24) as Hlog.
  destruct (foldl _ _ (seq 0 24)) as [ps' log']. simpl in Hlog. subst log'.
  exists ps'. split; [reflexivity|]. split; assumption.
Qed.

(** X3: [randomize] changes nothing but the selected parameters of the
    current track, the undo slot and the device log: the track, the display,
    the number of tracks, the vectors of the other tracks, the length of the
    current vector and every parameter that the group does not select stay as
    they were. *)
Theorem randomize_frame rnd amount mask trackMask st ps :
  paramSelectMask !! mask = Some trackMask ->
  params st = Some ps ->
  exists st' ps',
    randomize rnd amount mask st = Some st'
    /\ params st' = Some ps'
    /\ track st' = track st
    /\ gui_log st' = gui_log st
    /\ length (machines st') = length (machines st)
    /\ length ps' = length ps
    /\ (forall t, t <> track st -> machines st' !! t = machines st !! t)
    /\ (forall j, IS_BIT_SET32 trackMask (Z.of_nat j) = false -> ps' !! j = ps !! j)
    /\ (forall j, (24 <= j)%nat -> ps' !! j = ps !! j).
Proof.
  intros Hmask Hps.
  destruct (decide (amount = 0)) as [->|Hnz].
  - exists st, ps. unfold MDRandomizer.randomize. rewrite Hmask. simpl.
    repeat split; auto.
  - destruct (randomize_nonzero rnd amount mask trackMask st ps Hmask Hnz Hps)
      as (ps' & log' & Hrand & Hlook & Hlen).
    eexists. exists ps'. split; [exact Hrand|].
    split; [eapply params_after_write; exact Hps|]. simpl.
    split; [reflexivity|]. split; [reflexivity|].
    split; [apply length_insert|]. split; [exact Hlen|].
    split; [intros t Ht; apply list_lookup_insert_ne; congruence|].
    split.
    + intros j Hbit. rewrite Hlook. unfold randomized_upto.
      rewrite Hbit, andb_false_r. destruct (ps !! j); reflexivity.
    + intros j Hj. rewrite Hlook. unfold randomized_upto.
      rewrite bool_decide_eq_false_2 by lia. destruct (ps !! j); reflexivity.
Qed.

(** X4: with a non-zero amount, [randomize] sends to the device exactly one
    write per selected parameter, in increasing order of the parameters, each
    carrying the value the parameter now has in the kit; nothing is sent for
    the others. *)
Theorem randomize_writes_through rnd amount mask trackMask st ps :
  paramSelectMask !! mask = Some trackMask ->
  amount <> 0 ->
  params st = Some ps ->
  length ps = 24%nat ->
  exists st' ps',
    randomize rnd amount mask st = Some st'
    /\ params st' = Some ps'
    /\ setTrackParam_log st'
       = setTrackParam_log st
         ++ map (fun i => (track st, i, ps' !!! i))
                (filter (fun i => IS_BIT_SET32 trackMask (Z.of_nat i) = true) (seq 0 24)).
Proof.
  intros Hmask Hnz Hps Hlen.
  destruct (randomize_nonzero_log rnd amount mask trackMask st ps Hmask Hnz Hps)
    as (ps' & Hrand & Hlook & _).
  eexists. exists ps'. split; [exact Hrand|].
  split; [eapply params_after_write; exact Hps|]. simpl.
  f_equal. apply map_ext_in. intros i Hi.
  apply list_elem_of_In, list_elem_of_filter in Hi as [Hbit Hseq].
  apply (proj1 (elem_of_seq 0 24 i)) in Hseq.
  destruct (lookup_lt_is_Some_2 ps i ltac:(lia)) as [old Hold].
  rewrite (list_lookup_total_alt ps'), Hlook, Hold. simpl.
  unfold randomized_upto.
  rewrite Hbit, bool_decide_eq_true_2 by lia. simpl.
  rewrite (list_lookup_total_alt ps), Hold. reflexivity.
Qed.

(** X5: under a numbering of the parameters that reaches each of 0..23, a
    [randomize] of the group ALL with a non-zero amount brings every one of
    the 24 parameters within 0..127, whatever bytes the vector held before
    and whatever the generator yields. *)
Theorem randomize_all_clamps_everything rnd amount st ps :
  (forall j, 0 <= j < 24 -> exists p, param_index p = j) ->
  amount <> 0 ->
  params st = Some ps ->
  length ps = 24%nat ->
  exists st' ps',
    randomize rnd amount 12 st = Some st'
    /\ params st' = Some ps'
    /\ length ps' = 24%nat
    /\ Forall (fun v => 0 <= v <= 127) ps'.
Proof.
  intros Hsurj Hnz Hps Hlen.
  destruct (paramSelectMask_valid 12 ltac:(lia)) as [mALL HALL].
  destruct (randomize_nonzero rnd amount 12 mALL st ps HALL Hnz Hps)
    as (ps' & log' & Hrand & Hlook & Hlen').
  eexists. exists ps'. split; [exact Hrand|].
  split; [eapply params_after_write; exact Hps|].
  split; [congruence|].
  apply Forall_lookup. intros j v Hj.
  assert (Hlt : (j < 24)%nat)
    by (rewrite <- Hlen, <- Hlen'; apply lookup_lt_is_Some; eauto).
  rewrite Hlook in Hj.
  destruct (ps !! j) as [old|] eqn:Hold; simpl in Hj; [|discriminate].
  injection Hj as <-. unfold randomized_upto.
  rewrite (all_selects_every_parameter mALL j Hsurj HALL Hlt).
  rewrite bool_decide_eq_true_2 by exact Hlt. simpl.
  pose proof (randomize_param_range amount old (rnd j)) as Hr.
  rewrite to_u8_id; lia.
Qed.

(** X6: a selected parameter within 0..127 moves towards the sum of its old
    value and the drawn delta and stops at 0 or 127: when the sum does not
    overflow an [int], the new value lies between the old value and the sum,
    and is the sum itself when the sum is within 0..127. *)
Theorem randomize_moves_towards_draw rnd amount mask trackMask st ps i old :
  paramSelectMask !! mask = Some trackMask ->
  amount <> 0 ->
  params st = Some ps ->
  ps !! i = Some old ->
  (i < 24)%nat ->
  IS_BIT_SET32 trackMask (Z.of_nat i) = true ->
  0 <= old <= 127 ->
  old + wrap_int (random (wrap_int (- amount)) amount (rnd i)) <= INT_MAX ->
  exists st' ps' new,
    randomize rnd amount mask st = Some st'
    /\ params st' = Some ps'
    /\ ps' !! i = Some new
    /\ (let sum := old + wrap_int (random (wrap_int (- amount)) amount (rnd i)) in
        Z.min old sum <= new <= Z.max old sum
        /\ 0 <= new <= 127
        /\ (0 <= sum <= 127 -> new = sum)).
Proof.
  intros Hmask Hnz Hps Hold Hi Hbit Hrange Hsum.
  destruct (randomize_nonzero rnd amount mask trackMask st ps Hmask Hnz Hps)
    as (ps' & log' & Hrand & Hlook & _).
  eexists. exists ps'. eexists. split; [exact Hrand|].
  split; [eapply params_after_write; exact Hps|].
  split.
  { rewrite Hlook, Hold. simpl. unfold randomized_upto.
    rewrite Hbit, bool_decide_eq_true_2 by exact Hi. reflexivity. }
  pose proof (randomize_param_range amount old (rnd i)) as Hr.
  rewrite to_u8_id by lia.
  unfold randomize_param in *.
  set (d := wrap_int (random (wrap_int (- amount)) amount (rnd i))) in *.
  pose proof (wrap_int_range (random (wrap_int (- amount)) amount (rnd i))) as Hd.
  fold d in Hd.
  rewrite (wrap_int_id (old + d)) in * by (unfold INT_MIN, INT_MAX in *; lia).
  simpl.
  destruct (127 <? old + d) eqn:Hhi.
  - apply Z.ltb_lt in Hhi. simpl. lia.
  - apply Z.ltb_ge in Hhi.
    destruct (old + d <? 0) eqn:Hlo.
    + apply Z.ltb_lt in Hlo. lia.
    + apply Z.ltb_ge in Hlo. lia.
Qed.

(** X7: [undo] on a track of the kit, whether or not it finds a snapshot,
    leaves the track, the number of tracks and the vectors of the other
    tracks as they were: only the vector of the current track can change. *)
Theorem undo_frame st ps :
  params st = Some ps ->
  exists st',
    undo st = Some st'
    /\ track st' = track st
    /\ length (machines st') = length (machines st)
    /\ (forall t, t <> track st -> machines st' !! t = machines st !! t).
Proof.
  intros Hps. destruct (undoStack st) as [snapshot|] eqn:Hslot.
  - rewrite (undo_snapshot st ps snapshot Hslot Hps).
    eexists. split; [reflexivity|]. simpl.
    split; [reflexivity|]. split; [apply length_insert|].
    intros t Ht. apply list_lookup_insert_ne. congruence.
  - rewrite (undo_empty st Hslot).
    eexists. split; [reflexivity|]. simpl. auto.
Qed.

(** X8: the table of names goes with the table of masks: a selector has a
    name exactly when it has a mask, that is when it is below 13; each name
    is six characters wide, and no two groups share a name. *)
Theorem selectNames_match_masks :
  (forall mask : nat,
      (is_Some (selectNames !! mask) <-> is_Some (paramSelectMask !! mask))
      /\ (is_Some (selectNames !! mask) <-> (mask < 13)%nat))
  /\ Forall (fun name => String.length name = 6%nat) selectNames
  /\ NoDup selectNames.
Proof.
  split; [|split].
  - intros mask. rewrite !lookup_lt_is_Some, paramSelectMask_length.
    change (length selectNames) with 13%nat. tauto.
  - unfold selectNames. repeat constructor.
  - apply (bool_decide_unpack (NoDup selectNames)). vm_compute. exact I.
Qed.

(** C5: [randomize] adds to each parameter of the group a delta drawn from
    the closed interval from [-amount] to [amount] and clamps the sum: the
    delta drawn always lies in the interval; every delta of the interval,
    [amount] itself included, comes out for some output of the generator;
    and the draw is uniform, each delta coming out for exactly one generator
    output in every run of [2 * amount + 1] consecutive ones.  (The sum is
    that of [int] arithmetic; with amount 0, where the interval holds 0 only
    and the code leaves the vector alone, the parameter is taken within
    0..127.) *)
Theorem randomize_delta_closed_interval rnd amount mask trackMask st ps i old :
  0 <= amount <= INT_MAX ->
  (amount = 0 -> 0 <= old <= 127) ->
  paramSelectMask !! mask = Some trackMask ->
  params st = Some ps ->
  ps !! i = Some old ->
  (i < 24)%nat ->
  IS_BIT_SET32 trackMask (Z.of_nat i) = true ->
  (exists st' ps' d,
      randomize rnd amount mask st = Some st'
      /\ params st' = Some ps'
      /\ d = random (- amount) amount (rnd i)
      /\ - amount <= d <= amount
      /\ ps' !! i = Some (Z.max 0 (Z.min 127 (wrap_int (old + d)))))
  /\ (forall d, - amount <= d <= amount ->
        exists rnd' st' ps',
          random (- amount) amount (rnd' i) = d
          /\ randomize rnd' amount mask st = Some st'
          /\ params st' = Some ps'
          /\ ps' !! i = Some (Z.max 0 (Z.min 127 (wrap_int (old + d)))))
  /\ (forall d, - amount <= d <= amount ->
        exists raw,
          0 <= raw < 2 * amount + 1
          /\ random (- amount) amount raw = d
          /\ forall raw', 0 <= raw' < 2 * amount + 1 ->
                         random (- amount) amount raw' = d -> raw' = raw)
  /\ (forall raw,
        random (- amount) amount (raw + (2 * amount + 1))
        = random (- amount) amount raw).
Proof.
  intros Hamount Hzero Hmask Hps Hold Hi Hbit.
  split; [|split; [|split]].
  - destruct (randomize_selected rnd amount mask trackMask st ps i old
                Hamount Hzero Hmask Hps Hold Hi Hbit) as (st' & ps' & Hr & Hp & Hv).
    exists st', ps', (random (- amount) amount (rnd i)).
    split; [exact Hr|]. split; [exact Hp|]. split; [reflexivity|].
    split; [apply random_in_interval; lia|exact Hv].
  - intros d Hd.
    destruct (randomize_selected (fun _ => d + amount) amount mask trackMask st ps i old
                Hamount Hzero Hmask Hps Hold Hi Hbit) as (st' & ps' & Hr & Hp & Hv).
    assert (Hdraw : random (- amount) amount (d + amount) = d).
    { replace (d + amount) with (d - - amount) by lia. apply random_hits. lia. }
    exists (fun _ => d + amount), st', ps'.
    split; [exact Hdraw|]. split; [exact Hr|]. split; [exact Hp|].
    rewrite Hv, Hdraw. reflexivity.
  - intros d Hd. exists (d + amount).
    assert (Hdraw : random (- amount) amount (d + amount) = d).
    { replace (d + amount) with (d - - amount) by lia. apply random_hits. lia. }
    split; [lia|]. split; [exact Hdraw|].
    intros raw' Hraw' Heq.
    apply (random_one_per_period (- amount) amount); first [lia | congruence].
  - intros raw.
    replace (2 * amount + 1) with (amount - - amount + 1) by lia.
    apply random_periodic. lia.
Qed.

End RandomizerFacts.

(** ** The Euclidean pitch trigger *)

Section TriggerFacts.

Import PitchEuclid.

Variable isHit : Z -> bool.

Local Abbreviation on16Callback := (on16Callback isHit).
Local Abbreviation run_ticks := (run_ticks isHit).

Lemma note_off_own (n : Z * Z) : filter (fun m => m <> n) [n] = [].
Proof. rewrite filter_cons_False by (intros H; apply H; reflexivity). reflexivity. Qed.

(** The handler with [noteLength = 0]: one note-off when a note is sounding,
    nothing otherwise, never a note-on. *)
Lemma disabled_tick c k st :
  noteLength st = 0 ->
  exists st',
    on16Callback c k st = Some st'
    /\ noteLength st' = 0
    /\ mdTrack st' = mdTrack st
    /\ 127 < lastPitch st'
    /\ midi_log st'
       = midi_log st
         ++ (if lastPitch st <=? 127
             then [sendNoteOff (mdTrack st) (lastPitch st) 0] else []).
Proof.
  intros Hlen. unfold PitchEuclid.on16Callback.
  destruct (0 <? lastLength st) eqn:E1; simpl;
    destruct (lastPitch st <=? 127) eqn:E2; simpl; repeat (rewrite Hlen; simpl);
    eexists; (split; [reflexivity|]); simpl;
    rewrite ?app_nil_r; repeat split; try assumption; try lia.
  all: apply Z.leb_gt in E2; lia.
Qed.

(** case analysis on the tests met along an execution [H] of the handler *)
Ltac tick_split H :=
  unfold PitchEuclid.on16Callback in H;
  repeat (simpl in H;
          match type of H with
          | context [if ?b then _ else _] =>
              lazymatch b with
              | context [if _ then _ else _] => fail
              | _ => destruct b eqn:?
              end
          | context [?o ≫= _] => destruct o eqn:?
          | None = Some _ => discriminate H
          | Some _ = Some _ => injection H as <-
          end).

Ltac leb_facts :=
  repeat match goal with
         | H : (_ <=? _) = true |- _ => apply Z.leb_le in H
         | H : (_ <=? _) = false |- _ => apply Z.leb_gt in H
         | H : (_ <? _) = true |- _ => apply Z.ltb_lt in H
         | H : (_ <? _) = false |- _ => apply Z.ltb_ge in H
         | H : (_ =? _) = true |- _ => apply Z.eqb_eq in H
         | H : (_ =? _) = false |- _ => apply Z.eqb_neq in H
         end.

(** What one tick sends: at most a note-off for the note that was sounding,
    followed by at most one note-on; and what it leaves in [lastPitch]. *)
Lemma tick_shape c k st st' :
  on16Callback c k st = Some st' ->
  mdTrack st' = mdTrack st
  /\ exists offs ons,
      midi_log st' = midi_log st ++ offs ++ ons
      /\ ((offs = [] /\ (ons <> [] -> 127 < lastPitch st))
          \/ (offs = [sendNoteOff (mdTrack st) (lastPitch st) 0]
              /\ lastPitch st <= 127))
      /\ ((ons = [] /\ lastPitch st' = (if offs is [] then lastPitch st else 255))
          \/ (exists p, ons = [sendNoteOn (mdTrack st) p 100]
                        /\ 0 <= p <= 127 /\ lastPitch st' = p)).
Proof.
  intros H. tick_split H; simpl; (split; [reflexivity|]); leb_facts;
    rewrite <- ?app_assoc; simpl.
  all: try match goal with
           | Hp : pitches _ !! _ = Some ?z |- _ =>
               pose proof (to_u8_range (basePitch st + z))
           end.
  all: try (exists [], []; rewrite app_nil_r;
            (split; [reflexivity|]); (split; [left; done | left; done])).
  all: try (eexists [_], []; (split; [reflexivity|]);
            (split; [right; done | left; done])).
  all: try (eexists [], [_]; (split; [reflexivity|]);
            (split; [left; split; [done | intros _; lia]
                    | right; eexists; split; [reflexivity|];
                      split; [lia | done]])).
  all: try (eexists [_], [_]; (split; [reflexivity|]);
            (split; [right; done
                    | right; eexists; split; [reflexivity|];
                      split; [lia | done]])).
Qed.

Lemma own_note_length st : (length (own_note st) <= 1)%nat.
Proof. unfold own_note. destruct (lastPitch st <=? 127); simpl; lia. Qed.

(** the ways of cutting a list of at most two events in two *)
Ltac cut_events H :=
  match type of H with
  | _ = ?pre ++ _ =>
      destruct pre as [|? [|? [|? ?]]]; simpl in H; simplify_eq; simpl
  end.

(** One tick, seen from the notes left sounding: a note-on comes last, after
    the note-off of the note that was sounding; at no point of the tick are
    two notes of the handler sounding; and at the end the sounding note is
    the one recorded in [lastPitch]. *)
Lemma tick_sounding c k st st' :
  on16Callback c k st = Some st' ->
  exists evs,
    midi_log st' = midi_log st ++ evs
    /\ (forall pre e post,
          evs = pre ++ e :: post -> is_note_on e = true ->
          post = []
          /\ Forall (fun e' => is_note_on e' = false) pre
          /\ (lastPitch st <= 127 ->
              pre = [sendNoteOff (mdTrack st) (lastPitch st) 0]))
    /\ (forall pre post,
          evs = pre ++ post ->
          (length (sounding_after pre (own_note st)) <= 1)%nat)
    /\ sounding_after evs (own_note st) = own_note st'.
Proof.
  intros H. destruct (tick_shape c k st st' H) as (Htr & offs & ons & Hlog & Hoffs & Hons).
  exists (offs ++ ons). split; [exact Hlog|].
  unfold own_note, sounding_after. rewrite Htr.
  destruct Hoffs as [[-> Hquiet]|[-> Hlast]];
    destruct Hons as [[-> Hlp]|(p & -> & Hp & Hlp)]; simpl in *; rewrite Hlp.
  - split; [intros pre e post Hcut; cut_events Hcut|].
    split; [intros pre post Hcut; cut_events Hcut;
            destruct (lastPitch st <=? 127); simpl; lia|].
    reflexivity.
  - specialize (Hquiet ltac:(discriminate)).
    assert (Hgt : (lastPitch st <=? 127) = false) by (apply Z.leb_gt; lia).
    assert (Hle : (p <=? 127) = true) by (apply Z.leb_le; lia).
    rewrite Hgt, Hle.
    split; [intros pre e post Hcut Hon; cut_events Hcut;
            repeat split; try done; lia|].
    split; [intros pre post Hcut; cut_events Hcut; lia|].
    reflexivity.
  - assert (Hle : (lastPitch st <=? 127) = true) by (apply Z.leb_le; lia).
    rewrite Hle. simpl. rewrite note_off_own.
    split; [intros pre e post Hcut Hon; cut_events Hcut; discriminate|].
    split; [intros pre post Hcut; cut_events Hcut; rewrite ?note_off_own; simpl; lia|].
    reflexivity.
  - assert (Hle : (lastPitch st <=? 127) = true) by (apply Z.leb_le; lia).
    assert (Hle' : (p <=? 127) = true) by (apply Z.leb_le; lia).
    rewrite Hle, Hle'. simpl. rewrite note_off_own.
    split; [intros pre e post Hcut Hon; cut_events Hcut; try discriminate;
            repeat split; try done; repeat constructor|].
    split; [intros pre post Hcut; cut_events Hcut; rewrite ?note_off_own; simpl; lia|].
    reflexivity.
Qed.

(** the same over a run of ticks *)
Lemma run_sounding ticks st st' :
  run_ticks ticks st = Some st' ->
  exists evs,
    midi_log st' = midi_log st ++ evs
    /\ (forall pre post,
          evs = pre ++ post ->
          (length (sounding_after pre (own_note st)) <= 1)%nat)
    /\ sounding_after evs (own_note st) = own_note st'.
Proof.
  revert st. induction ticks as [|t ticks IH]; intros st Hrun; simpl in Hrun.
  - injection Hrun as <-. exists []. rewrite app_nil_r.
    split; [reflexivity|]. split; [|reflexivity].
    intros pre post Hcut. symmetry in Hcut. apply app_eq_nil in Hcut as [-> _].
    apply own_note_length.
  - destruct (on16Callback t.1 t.2 st) as [st1|] eqn:Htick; simpl in Hrun;
      [|discriminate].
    destruct (tick_sounding _ _ _ _ Htick) as (evs1 & Hlog1 & _ & Hpre1 & Hend1).
    destruct (IH st1 Hrun) as (evs2 & Hlog2 & Hpre2 & Hend2).
    exists (evs1 ++ evs2).
    split; [rewrite Hlog2, Hlog1, app_assoc; reflexivity|].
    split.
    + intros pre post Hcut. symmetry in Hcut.
      apply app_eq_app in Hcut as [l [[-> ->]|[-> ->]]].
      * unfold sounding_after in *. rewrite foldl_app, Hend1.
        eapply Hpre2. reflexivity.
      * eapply Hpre1. reflexivity.
    + unfold sounding_after in *. rewrite foldl_app, Hend1. exact Hend2.
Qed.

(** a disabled trigger over a run of ticks *)
Lemma disabled_run ticks st :
  noteLength st = 0 ->
  exists st',
    run_ticks ticks st = Some st'
    /\ noteLength st' = 0
    /\ midi_log st'
       = midi_log st
         ++ match ticks with
            | [] => []
            | _ :: _ =>
                if lastPitch st <=? 127
                then [sendNoteOff (mdTrack st) (lastPitch st) 0] else []
            end.
Proof.
  revert st. induction ticks as [|t ticks IH]; intros st Hlen; simpl.
  - exists st. rewrite app_nil_r. auto.
  - destruct (disabled_tick t.1 t.2 st Hlen) as (st1 & Htick & Hlen1 & _ & Hquiet & Hlog1).
    rewrite Htick. simpl.
    destruct (IH st1 Hlen1) as (st' & Hrun & Hlen' & Hlog').
    exists st'. split; [exact Hrun|]. split; [exact Hlen'|].
    rewrite Hlog', Hlog1.
    assert (Hgt : (lastPitch st1 <=? 127) = false) by (apply Z.leb_gt; lia).
    rewrite Hgt. destruct ticks; rewrite app_nil_r; reflexivity.
Qed.

(** *** The cursor of the pitch buffer *)

Lemma cursor_step idx len :
  0 <= idx -> 0 < len -> 0 <= to_u8 (Z.rem (idx + 1) len) < len.
Proof.
  intros Hidx Hlen.
  pose proof (Z.rem_bound_pos (idx + 1) len ltac:(lia) Hlen) as Hrem.
  pose proof (to_u8_range (Z.rem (idx + 1) len)) as Hu8.
  pose proof (Z.mod_le (Z.rem (idx + 1) len) (2 ^ 8) ltac:(lia) ltac:(lia)) as Hle.
  unfold to_u8 in *. lia.
Qed.

Ltac tick_goal_tests Hp :=
  unfold PitchEuclid.on16Callback;
  repeat (simpl; rewrite ?Hp;
          match goal with
          | |- context [if ?b then _ else _] =>
              lazymatch b with
              | context [if _ then _ else _] => fail
              | _ => destruct b eqn:?
              end
          end).

(** With a non-empty pitch sequence inside the buffer and the cursor inside
    the sequence, a tick is defined and leaves the cursor inside. *)
Lemma tick_cursor c k st :
  0 < pitches_len st <= Z.of_nat (length (pitches st)) ->
  0 <= pitches_idx st < pitches_len st ->
  exists st',
    on16Callback c k st = Some st'
    /\ pitches_len st' = pitches_len st
    /\ pitches st' = pitches st
    /\ 0 <= pitches_idx st' < pitches_len st'.
Proof.
  intros Hlen Hidx.
  destruct (lookup_lt_is_Some_2 (pitches st) (Z.to_nat (pitches_idx st))
              ltac:(lia)) as [p Hp].
  tick_goal_tests Hp; simpl; leb_facts; try lia;
    (eexists; split; [reflexivity|]); simpl;
    (split; [reflexivity|]); (split; [reflexivity|]);
    first [lia | apply cursor_step; lia].
Qed.

Lemma run_cursor ticks st :
  0 < pitches_len st <= Z.of_nat (length (pitches st)) ->
  0 <= pitches_idx st < pitches_len st ->
  exists st',
    run_ticks ticks st = Some st'
    /\ pitches_len st' = pitches_len st
    /\ 0 <= pitches_idx st' < pitches_len st'.
Proof.
  revert st. induction ticks as [|t ticks IH]; intros st Hlen Hidx; simpl.
  - exists st. auto.
  - destruct (tick_cursor t.1 t.2 st Hlen Hidx) as (st1 & Htick & Hlen1 & Hbuf1 & Hidx1).
    rewrite Htick. simpl.
    destruct (IH st1) as (st' & Hrun & Hlen' & Hidx'); [rewrite Hlen1, Hbuf1; lia|lia|].
    exists st'. split; [exact Hrun|]. split; [congruence|lia].
Qed.

(** On a hit step of the enabled trigger, an empty pitch sequence makes the
    handler take a remainder by zero. *)
Lemma tick_mod_zero c k st :
  noteLength st <> 0 ->
  isHit c = true ->
  pitches_len st = 0 ->
  on16Callback c k st = None.
Proof.
  intros Hen Hhit Hzero. unfold PitchEuclid.on16Callback.
  repeat (simpl; rewrite ?Hhit, ?Hzero;
          match goal with
          | |- context [if ?b then _ else _] =>
              lazymatch b with
              | context [if _ then _ else _] => fail
              | _ => destruct b eqn:?
              end
          | |- context [?o ≫= _] => destruct o eqn:?
          end); simpl; leb_facts; try reflexivity; try contradiction.
Qed.

Lemma setPitchLength_zero draw st :
  setPitchLength draw 0 st = Some (set_pitches_len 0 st).
Proof.
  unfold setPitchLength, randomizePitches. reflexivity.
Qed.

Lemma quiet_tick c k st :
  isHit c = false ->
  exists st',
    on16Callback c k st = Some st'
    /\ pitches_len st' = pitches_len st
    /\ noteLength st' = noteLength st.
Proof.
  intros Hquiet. unfold PitchEuclid.on16Callback.
  repeat (simpl; rewrite ?Hquiet;
          match goal with
          | |- context [if ?b then _ else _] =>
              lazymatch b with
              | context [if _ then _ else _] => fail
              | _ => destruct b eqn:?
              end
          end); eexists; (split; [reflexivity|]); simpl; split; reflexivity.
Qed.

Lemma quiet_run ticks st :
  Forall (fun t => isHit t.1 = false) ticks ->
  exists st',
    run_ticks ticks st = Some st'
    /\ pitches_len st' = pitches_len st
    /\ noteLength st' = noteLength st.
Proof.
  intros Hquiet. revert st.
  induction Hquiet as [|t ticks Ht _ IH]; intros st; simpl.
  - exists st. auto.
  - destruct (quiet_tick t.1 t.2 st Ht) as (st1 & Htick & Hlen1 & Hnote1).
    rewrite Htick. simpl.
    destruct (IH st1) as (st' & Hrun & Hlen' & Hnote').
    exists st'. split; [exact Hrun|]. split; congruence.
Qed.

Lemma run_ticks_app ticks1 ticks2 st :
  run_ticks (ticks1 ++ ticks2) st = (run_ticks ticks1 st ≫= run_ticks ticks2).
Proof.
  revert st. induction ticks1 as [|t ticks1 IH]; intros st; simpl; [reflexivity|].
  destruct (on16Callback t.1 t.2 st) as [st1|]; simpl; [apply IH|reflexivity].
Qed.

(** C4, as the code has it: with [noteLength = 0] every tick is defined and
    no tick sends a note-on, whatever the pattern; over any run of ticks the
    handler sends nothing at all when no note was sounding, and otherwise
    exactly one event, on the first tick: the note-off of the note that was
    sounding. *)
Theorem disabled_trigger_only_releases ticks st :
  noteLength st = 0 ->
  exists st' evs,
    run_ticks ticks st = Some st'
    /\ midi_log st' = midi_log st ++ evs
    /\ Forall (fun e => is_note_on e = false) evs
    /\ evs = match ticks with
             | [] => []
             | _ :: _ =>
                 if lastPitch st <=? 127
                 then [sendNoteOff (mdTrack st) (lastPitch st) 0] else []
             end.
Proof.
  intros Hlen.
  destruct (disabled_run ticks st Hlen) as (st' & Hrun & _ & Hlog).
  eexists. eexists. split; [exact Hrun|]. split; [exact Hlog|].
  split; [|reflexivity].
  destruct ticks; [constructor|].
  destruct (lastPitch st <=? 127); repeat constructor.
Qed.

(** C9: within one tick a note-on is the last event sent and, when a note
    was sounding, it is sent after the note-off of that note; at no point of
    a tick, nor of a run of ticks, are two notes of the handler sounding;
    and with a pitch sequence inside the buffer and the cursor inside the
    sequence such a run is defined, whatever its ticks. *)
Theorem note_off_precedes_note_on :
  (forall c k st st',
      on16Callback c k st = Some st' ->
      exists evs,
        midi_log st' = midi_log st ++ evs
        /\ (forall pre e post,
              evs = pre ++ e :: post -> is_note_on e = true ->
              post = []
              /\ Forall (fun e' => is_note_on e' = false) pre
              /\ (lastPitch st <= 127 ->
                  pre = [sendNoteOff (mdTrack st) (lastPitch st) 0]))
        /\ (forall pre post,
              evs = pre ++ post ->
              (length (sounding_after pre (own_note st)) <= 1)%nat)
        /\ sounding_after evs (own_note st) = own_note st')
  /\ (forall ticks st st',
        run_ticks ticks st = Some st' ->
        exists evs,
          midi_log st' = midi_log st ++ evs
          /\ (forall pre post,
                evs = pre ++ post ->
                (length (sounding_after pre (own_note st)) <= 1)%nat)
          /\ sounding_after evs (own_note st) = own_note st')
  /\ (forall ticks st,
        0 < pitches_len st <= Z.of_nat (length (pitches st)) ->
        0 <= pitches_idx st < pitches_len st ->
        exists st' evs,
          run_ticks ticks st = Some st'
          /\ midi_log st' = midi_log st ++ evs
          /\ (forall pre post,
                evs = pre ++ post ->
                (length (sounding_after pre (own_note st)) <= 1)%nat)).
Proof.
  split; [exact tick_sounding|]. split; [exact run_sounding|].
  intros ticks st Hlen Hidx.
  destruct (run_cursor ticks st Hlen Hidx) as (st' & Hrun & _).
  destruct (run_sounding ticks st st' Hrun) as (evs & Hlog & Hpre & _).
  exists st', evs. auto.
Qed.

(** C10: the handler needs a non-empty pitch sequence.  [setPitchLength 0]
    leaves [pitches_len = 0]; from there, with the trigger enabled, the
    ticks before the first hit are defined and the first hit takes a
    remainder by zero, for which the handler has no result.  With
    [pitches_len > 0] (within the buffer) and the cursor inside the sequence,
    every run of ticks is defined and leaves the cursor inside. *)
Theorem pitch_cursor_needs_nonempty_sequence :
  (forall draw st, setPitchLength draw 0 st = Some (set_pitches_len 0 st))
  /\ (forall c k st,
        noteLength st <> 0 -> isHit c = true -> pitches_len st = 0 ->
        on16Callback c k st = None)
  /\ (forall draw quiet c k st,
        noteLength st <> 0 ->
        Forall (fun t => isHit t.1 = false) quiet ->
        isHit c = true ->
        (exists st', (setPitchLength draw 0 st ≫= run_ticks quiet) = Some st')
        /\ (setPitchLength draw 0 st ≫= run_ticks (quiet ++ [(c, k)])) = None)
  /\ (forall ticks st,
        0 < pitches_len st <= Z.of_nat (length (pitches st)) ->
        0 <= pitches_idx st < pitches_len st ->
        exists st',
          run_ticks ticks st = Some st'
          /\ pitches_len st' = pitches_len st
          /\ 0 <= pitches_idx st' < pitches_len st').
Proof.
  split; [exact setPitchLength_zero|].
  split; [exact tick_mod_zero|].
  split; [|exact run_cursor].
  intros draw quiet c k st Hen Hquiet Hhit.
  rewrite setPitchLength_zero. simpl.
  destruct (quiet_run quiet (set_pitches_len 0 st) Hquiet)
    as (st1 & Hrun & Hlen1 & Hnote1).
  split; [exists st1; exact Hrun|].
  rewrite run_ticks_app, Hrun. simpl.
  rewrite (tick_mod_zero c k st1); [reflexivity| |exact Hhit|exact Hlen1].
  rewrite Hnote1. exact Hen.
Qed.

(** *** One tick, hit or not *)

Ltac tick_cases Hhit Hp :=
  unfold PitchEuclid.on16Callback;
  repeat (simpl; rewrite ?Hhit, ?Hp;
          match goal with
          | |- context [if ?b then _ else _] =>
              lazymatch b with
              | context [if _ then _ else _] => fail
              | _ => destruct b eqn:?
              end
          end).

(** A hit of the enabled trigger: the sounding note, if any, is released
    whatever is left of its length; a note is sent when the trigger is not
    muted and the pitch byte is at most 127; the cursor moves on. *)
Lemma hit_tick_effect c k st p :
  noteLength st <> 0 ->
  isHit c = true ->
  pitches st !! Z.to_nat (pitches_idx st) = Some p ->
  pitches_len st <> 0 ->
  exists st',
    on16Callback c k st = Some st'
    /\ midi_log st'
       = midi_log st
         ++ (if lastPitch st <=? 127
             then [sendNoteOff (mdTrack st) (lastPitch st) 0] else [])
         ++ (if (to_u8 (basePitch st + p) <=? 127) && negb (muted st)
             then [sendNoteOn (mdTrack st) (to_u8 (basePitch st + p)) 100] else [])
    /\ lastPitch st'
       = (if (to_u8 (basePitch st + p) <=? 127) && negb (muted st)
          then to_u8 (basePitch st + p)
          else if lastPitch st <=? 127 then 255 else lastPitch st)
    /\ ((to_u8 (basePitch st + p) <=? 127) && negb (muted st) = true ->
        lastLength st' = noteLength st)
    /\ pitches_idx st' = to_u8 (Z.rem (pitches_idx st + 1) (pitches_len st))
    /\ noteLength st' = noteLength st
    /\ pitches st' = pitches st
    /\ pitches_len st' = pitches_len st
    /\ mdTrack st' = mdTrack st
    /\ muted st' = muted st
    /\ basePitch st' = basePitch st.
Proof.
  intros Hen Hhit Hp Hlen.
  tick_cases Hhit Hp; simpl; leb_facts; try contradiction;
    (eexists; split; [reflexivity|]); simpl;
    rewrite <- ?app_assoc, ?app_nil_r; simpl;
    repeat split; try reflexivity; try discriminate; try lia.
Qed.

(** A tick of the enabled trigger that is not a hit: the length left to the
    sounding note goes down by one, and the note is released when nothing is
    left. *)
Lemma quiet_tick_effect c k st :
  noteLength st <> 0 ->
  isHit c = false ->
  0 <= lastLength st <= 256 ->
  exists st',
    on16Callback c k st = Some st'
    /\ midi_log st'
       = midi_log st
         ++ (if (lastPitch st <=? 127) && (lastLength st <=? 1)
             then [sendNoteOff (mdTrack st) (lastPitch st) 0] else [])
    /\ lastPitch st'
       = (if (lastPitch st <=? 127) && (lastLength st <=? 1)
          then 255 else lastPitch st)
    /\ lastLength st' = Z.max 0 (lastLength st - 1)
    /\ noteLength st' = noteLength st
    /\ mdTrack st' = mdTrack st
    /\ pitches_idx st' = pitches_idx st.
Proof.
  intros Hen Hquiet Hlast.
  assert (Hdec : 0 < lastLength st -> to_u8 (lastLength st - 1) = lastLength st - 1)
    by (intros; apply to_u8_id; lia).
  tick_cases Hquiet Hquiet; simpl; leb_facts; try contradiction;
    (eexists; split; [reflexivity|]); simpl;
    rewrite ?app_nil_r; simpl;
    repeat split; try reflexivity; try lia.
Qed.

(** the sounding note over a run of such ticks *)
Lemma quiet_run_sustain ticks st :
  noteLength st <> 0 ->
  Forall (fun t => isHit t.1 = false) ticks ->
  0 <= lastLength st <= 256 ->
  exists st',
    run_ticks ticks st = Some st'
    /\ midi_log st'
       = midi_log st
         ++ (if (lastPitch st <=? 127)
                && (Z.max 1 (lastLength st) <=? Z.of_nat (length ticks))
             then [sendNoteOff (mdTrack st) (lastPitch st) 0] else [])
    /\ noteLength st' = noteLength st
    /\ pitches_idx st' = pitches_idx st.
Proof.
  intros Hen Hquiet. revert st Hen.
  induction Hquiet as [|t ticks Ht _ IH]; intros st Hen Hlast.
  - exists st. split; [reflexivity|]. split; [|auto].
    change (Z.of_nat (length (@nil (Z * Z)))) with 0.
    assert (Hno : (Z.max 1 (lastLength st) <=? 0) = false) by (apply Z.leb_gt; lia).
    rewrite Hno, andb_false_r, app_nil_r. reflexivity.
  - destruct (quiet_tick_effect t.1 t.2 st Hen Ht Hlast)
      as (st1 & Htick & Hlog1 & Hpitch1 & Hlast1 & Hnote1 & Htrack1 & Hidx1).
    destruct (IH st1) as (st' & Hrun & Hlog' & Hnote' & Hidx'); [congruence|lia|].
    exists st'. simpl. rewrite Htick. simpl.
    split; [exact Hrun|]. split; [|split; congruence].
    rewrite Hlog', Hlog1, Hpitch1, Hlast1, Htrack1, <- app_assoc. f_equal.
    rewrite Nat2Z.inj_succ.
    destruct (lastPitch st <=? 127) eqn:Hp; simpl; [|rewrite Hp; reflexivity].
    destruct (lastLength st <=? 1) eqn:H1; simpl.
    + apply Z.leb_le in H1.
      replace (Z.max 1 (lastLength st) <=? Z.succ (Z.of_nat (length ticks))) with true
        by (symmetry; apply Z.leb_le; lia).
      reflexivity.
    + apply Z.leb_gt in H1. rewrite Hp. simpl.
      replace (Z.max 1 (Z.max 0 (lastLength st - 1)) <=? Z.of_nat (length ticks))
        with (Z.max 1 (lastLength st) <=? Z.succ (Z.of_nat (length ticks))).
      * reflexivity.
      * destruct (Z.leb_spec (Z.max 1 (lastLength st)) (Z.succ (Z.of_nat (length ticks))));
          symmetry; [apply Z.leb_le|apply Z.leb_gt]; lia.
Qed.

(** X9: a note sent on a hit lasts [noteLength] ticks: the hit releases the
    note that was sounding and sends the new one, and over the ticks that
    follow without a hit the note-off of the new note is sent exactly once
    [noteLength] of them have gone by, and not before. *)
Theorem note_lasts_noteLength_ticks c k quiet st p :
  0 < noteLength st <= 255 ->
  isHit c = true ->
  Forall (fun t => isHit t.1 = false) quiet ->
  pitches st !! Z.to_nat (pitches_idx st) = Some p ->
  pitches_len st <> 0 ->
  muted st = false ->
  to_u8 (basePitch st + p) <= 127 ->
  exists st',
    run_ticks ((c, k) :: quiet) st = Some st'
    /\ midi_log st'
       = midi_log st
         ++ (if lastPitch st <=? 127
             then [sendNoteOff (mdTrack st) (lastPitch st) 0] else [])
         ++ [sendNoteOn (mdTrack st) (to_u8 (basePitch st + p)) 100]
         ++ (if noteLength st <=? Z.of_nat (length quiet)
             then [sendNoteOff (mdTrack st) (to_u8 (basePitch st + p)) 0] else []).
Proof.
  intros Hlen Hhit Hquiet Hp Hseq Hmuted Hpitch.
  destruct (hit_tick_effect c k st p ltac:(lia) Hhit Hp Hseq)
    as (st1 & Htick & Hlog1 & Hpitch1 & Hlast1 & _ & Hnote1 & _ & _ & Htrack1 & _).
  assert (Hsounds : (to_u8 (basePitch st + p) <=? 127) && negb (muted st) = true)
    by (rewrite Hmuted, andb_true_r; apply Z.leb_le; exact Hpitch).
  rewrite Hsounds in *. specialize (Hlast1 eq_refl).
  destruct (quiet_run_sustain quiet st1 ltac:(lia) Hquiet ltac:(lia))
    as (st' & Hrun & Hlog' & _).
  exists st'. simpl. rewrite Htick. simpl. split; [exact Hrun|].
  rewrite Hlog', Hlog1, Hpitch1, Hlast1, Htrack1, <- !app_assoc.
  replace (to_u8 (basePitch st + p) <=? 127) with true
    by (symmetry; apply Z.leb_le; exact Hpitch).
  replace (Z.max 1 (noteLength st)) with (noteLength st) by lia.
  reflexivity.
Qed.

(** X10: a hit that cannot sound, because the trigger is muted or because the
    pitch byte is above 127, still releases the note that was sounding and
    moves the cursor on; it sends no note-on and leaves no note sounding. *)
Theorem silent_hit_cuts_and_advances c k st p :
  noteLength st <> 0 ->
  isHit c = true ->
  pitches st !! Z.to_nat (pitches_idx st) = Some p ->
  pitches_len st <> 0 ->
  muted st = true \/ 127 < to_u8 (basePitch st + p) ->
  exists st',
    on16Callback c k st = Some st'
    /\ midi_log st'
       = midi_log st
         ++ (if lastPitch st <=? 127
             then [sendNoteOff (mdTrack st) (lastPitch st) 0] else [])
    /\ 127 < lastPitch st'
    /\ pitches_idx st' = to_u8 (Z.rem (pitches_idx st + 1) (pitches_len st)).
Proof.
  intros Hen Hhit Hp Hseq Hsilent.
  destruct (hit_tick_effect c k st p Hen Hhit Hp Hseq)
    as (st' & Htick & Hlog & Hpitch & _ & Hidx & _).
  assert (Hsounds : (to_u8 (basePitch st + p) <=? 127) && negb (muted st) = false).
  { destruct Hsilent as [->|Hhigh]; [apply andb_false_r|].
    apply andb_false_iff. left. apply Z.leb_gt. exact Hhigh. }
  rewrite Hsounds in *. rewrite app_nil_r in Hlog.
  exists st'. split; [exact Htick|]. split; [exact Hlog|]. split; [|exact Hidx].
  rewrite Hpitch. destruct (lastPitch st <=? 127) eqn:E; [lia|].
  apply Z.leb_gt in E. exact E.
Qed.

(** *** Muting *)

Lemma muted_tick c k st st' :
  muted st = true ->
  on16Callback c k st = Some st' ->
  muted st' = true
  /\ exists evs,
      midi_log st' = midi_log st ++ evs
      /\ Forall (fun e => is_note_on e = false) evs.
Proof.
  intros Hmuted H. destruct st. simpl in Hmuted. subst.
  tick_split H; simpl; (split; [reflexivity|]);
    rewrite <- ?app_assoc; simpl;
    first [ exists []; rewrite app_nil_r; split; [reflexivity|constructor]
          | eexists [_]; split; [reflexivity|repeat constructor] ].
Qed.

Lemma muted_run ticks st st' :
  muted st = true ->
  run_ticks ticks st = Some st' ->
  exists evs,
    midi_log st' = midi_log st ++ evs
    /\ Forall (fun e => is_note_on e = false) evs.
Proof.
  revert st. induction ticks as [|t ticks IH]; intros st Hmuted Hrun; simpl in Hrun.
  - injection Hrun as <-. exists []. rewrite app_nil_r. split; [reflexivity|constructor].
  - destruct (on16Callback t.1 t.2 st) as [st1|] eqn:Htick; simpl in Hrun; [|discriminate].
    destruct (muted_tick _ _ _ _ Hmuted Htick) as (Hmuted1 & evs1 & Hlog1 & Hoff1).
    destruct (IH st1 Hmuted1 Hrun) as (evs2 & Hlog2 & Hoff2).
    exists (evs1 ++ evs2). split; [rewrite Hlog2, Hlog1, app_assoc; reflexivity|].
    apply Forall_app. split; assumption.
Qed.

(** the cursor and the sequence after a tick *)
Lemma tick_sequence c k st :
  match on16Callback c k st with
  | Some st' =>
      cursor_after (isHit c) st = Some (pitches_idx st')
      /\ noteLength st' = noteLength st
      /\ pitches st' = pitches st
      /\ pitches_len st' = pitches_len st
      /\ basePitch st' = basePitch st
  | None => cursor_after (isHit c) st = None
  end.
Proof.
  unfold PitchEuclid.on16Callback, cursor_after.
  repeat (simpl;
          match goal with
          | |- context [if ?b then _ else _] =>
              lazymatch b with
              | context [if _ then _ else _] => fail
              | _ => destruct b eqn:?
              end
          | |- context [?o ≫= _] => destruct o eqn:?
          end); simpl; first [congruence | repeat split; reflexivity].
Qed.

(** one tick on two triggers with the same sequence: both are defined or
    neither is, and they still have the same sequence afterwards *)
Lemma tick_same_sequence c k st1 st2 :
  same_sequence st1 st2 ->
  match on16Callback c k st1, on16Callback c k st2 with
  | Some st1', Some st2' => same_sequence st1' st2'
  | None, None => True
  | _, _ => False
  end.
Proof.
  intros (Hnote & Hbuf & Hlen & Hidx & Hbase).
  assert (Hcur : cursor_after (isHit c) st1 = cursor_after (isHit c) st2)
    by (unfold cursor_after; rewrite Hnote, Hbuf, Hlen, Hidx; reflexivity).
  pose proof (tick_sequence c k st1) as H1.
  pose proof (tick_sequence c k st2) as H2.
  destruct (on16Callback c k st1) as [st1'|], (on16Callback c k st2) as [st2'|].
  - destruct H1 as (Hc1 & ? & ? & ? & ?), H2 as (Hc2 & ? & ? & ? & ?).
    unfold same_sequence. repeat split; congruence.
  - destruct H1 as (Hc1 & _). congruence.
  - destruct H2 as (Hc2 & _). congruence.
  - exact I.
Qed.

Lemma run_same_sequence ticks st1 st2 :
  same_sequence st1 st2 ->
  pitches_idx <$> run_ticks ticks st1 = pitches_idx <$> run_ticks ticks st2.
Proof.
  revert st1 st2. induction ticks as [|t ticks IH]; intros st1 st2 Hsame; simpl.
  - f_equal. apply Hsame.
  - pose proof (tick_same_sequence t.1 t.2 st1 st2 Hsame) as Hstep.
    destruct (on16Callback t.1 t.2 st1) as [st1'|],
             (on16Callback t.1 t.2 st2) as [st2'|]; simpl; try contradiction.
    + apply IH. exact Hstep.
    + reflexivity.
Qed.

(** X11: muting silences the trigger without stopping it: over any run of
    ticks a muted trigger sends no note-on, and its cursor ends where the
    cursor of the same trigger, not muted, ends (and the one run is defined
    exactly when the other is). *)
Theorem muted_trigger_keeps_walking ticks st :
  (forall st', run_ticks ticks (set_muted true st) = Some st' ->
               exists evs,
                 midi_log st' = midi_log st ++ evs
                 /\ Forall (fun e => is_note_on e = false) evs)
  /\ pitches_idx <$> run_ticks ticks (set_muted true st)
     = pitches_idx <$> run_ticks ticks (set_muted false st).
Proof.
  split.
  - intros st' Hrun. exact (muted_run ticks (set_muted true st) st' eq_refl Hrun).
  - apply run_same_sequence. unfold same_sequence. simpl. auto.
Qed.

(** *** What goes on the wire *)

Lemma valid_tick c k st st' :
  0 <= lastPitch st ->
  on16Callback c k st = Some st' ->
  0 <= lastPitch st'
  /\ mdTrack st' = mdTrack st
  /\ exists evs,
      midi_log st' = midi_log st ++ evs
      /\ Forall (valid_event (mdTrack st)) evs.
Proof.
  intros Hpos H.
  destruct (tick_shape c k st st' H) as (Htr & offs & ons & Hlog & Hoffs & Hons).
  split; [|split; [exact Htr|]].
  - destruct Hons as [[_ ->]|(p & _ & Hp & ->)]; [|lia].
    destruct offs; lia.
  - exists (offs ++ ons). split; [exact Hlog|].
    apply Forall_app. split.
    + destruct Hoffs as [[-> _]|[-> Hle]]; repeat constructor; lia.
    + destruct Hons as [[-> _]|(p & -> & Hp & _)]; repeat constructor; lia.
Qed.

(** X12: everything the handler sends is fit for the UART: over any run of
    ticks from a state whose [lastPitch] is not negative, each event goes to
    the channel [mdTrack] with a pitch within 0..127, velocity 100 for a
    note-on and 0 for a note-off. *)
Theorem events_fit_the_uart ticks st st' :
  0 <= lastPitch st ->
  run_ticks ticks st = Some st' ->
  exists evs,
    midi_log st' = midi_log st ++ evs
    /\ Forall (valid_event (mdTrack st)) evs.
Proof.
  revert st. induction ticks as [|t ticks IH]; intros st Hpos Hrun; simpl in Hrun.
  - injection Hrun as <-. exists []. rewrite app_nil_r. split; [reflexivity|constructor].
  - destruct (on16Callback t.1 t.2 st) as [st1|] eqn:Htick; simpl in Hrun; [|discriminate].
    destruct (valid_tick _ _ _ _ Hpos Htick) as (Hpos1 & Htr1 & evs1 & Hlog1 & Hok1).
    destruct (IH st1 Hpos1 Hrun) as (evs2 & Hlog2 & Hok2).
    exists (evs1 ++ evs2). split; [rewrite Hlog2, Hlog1, app_assoc; reflexivity|].
    apply Forall_app. split; [exact Hok1|]. rewrite <- Htr1. exact Hok2.
Qed.

(** a note-off of a tick is for the note that is sounding when it is sent *)
Lemma tick_off_sounding c k st st' :
  on16Callback c k st = Some st' ->
  exists evs,
    midi_log st' = midi_log st ++ evs
    /\ sounding_after evs (own_note st) = own_note st'
    /\ forall pre ch p v post,
        evs = pre ++ sendNoteOff ch p v :: post ->
        (ch, p) ∈ sounding_after pre (own_note st).
Proof.
  intros H.
  destruct (tick_sounding c k st st' H) as (evs & Hlog & _ & _ & Hend).
  destruct (tick_shape c k st st' H) as (_ & offs & ons & Hlog' & Hoffs & Hons).
  assert (evs = offs ++ ons) as -> by (rewrite Hlog in Hlog'; eapply app_inv_head; eauto).
  exists (offs ++ ons). split; [exact Hlog|]. split; [exact Hend|].
  intros pre ch p v post Hcut.
  destruct Hoffs as [[-> _]|[-> Hle]];
    destruct Hons as [[-> _]|(q & -> & _ & _)]; simpl in Hcut;
    cut_events Hcut.
  all: unfold own_note;
    replace (lastPitch st <=? 127) with true by (symmetry; apply Z.leb_le; lia);
    apply list_elem_of_here.
Qed.

(** X13: the handler never sends a note-off for a note that is not sounding:
    over any run of ticks, each note-off is for a note that the events before
    it, on top of the note recorded in [lastPitch] at the start, have left
    sounding. *)
Theorem note_off_only_for_sounding_note ticks st st' :
  run_ticks ticks st = Some st' ->
  exists evs,
    midi_log st' = midi_log st ++ evs
    /\ forall pre ch p v post,
        evs = pre ++ sendNoteOff ch p v :: post ->
        (ch, p) ∈ sounding_after pre (own_note st).
Proof.
  revert st. induction ticks as [|t ticks IH]; intros st Hrun; simpl in Hrun.
  - injection Hrun as <-. exists []. rewrite app_nil_r. split; [reflexivity|].
    intros pre ch p v post Hcut. destruct pre; discriminate.
  - destruct (on16Callback t.1 t.2 st) as [st1|] eqn:Htick; simpl in Hrun; [|discriminate].
    destruct (tick_off_sounding _ _ _ _ Htick) as (evs1 & Hlog1 & Hend1 & Hoff1).
    destruct (IH st1 Hrun) as (evs2 & Hlog2 & Hoff2).
    exists (evs1 ++ evs2). split; [rewrite Hlog2, Hlog1, app_assoc; reflexivity|].
    intros pre ch p v post Hcut. symmetry in Hcut.
    apply app_eq_app in Hcut as [l [[-> Hl]|[-> Hl]]].
    + unfold sounding_after in *. rewrite foldl_app, Hend1.
      eapply Hoff2. exact Hl.
    + destruct l as [|e l]; simpl in Hl.
      * rewrite app_nil_r in Hend1. unfold sounding_after in *. rewrite Hend1.
        apply (Hoff2 [] ch p v post). simpl. congruence.
      * injection Hl as <- ->. eapply Hoff1. reflexivity.
Qed.

(** *** The pitch sequence *)

Lemma fill_lookup (f : nat -> Z) (ps : list Z) n j :
  (n <= length ps)%nat ->
  foldl (fun ps i => <[i := f i]> ps) ps (seq 0 n) !! j
  = if bool_decide (j < n)%nat then Some (f j) else ps !! j.
Proof.
  induction n as [|n IH]; intros Hn; [reflexivity|].
  rewrite seq_S, foldl_app. simpl.
  assert (Hlen : length (foldl (fun ps i => <[i := f i]> ps) ps (seq 0 n)) = length ps).
  { clear. induction n as [|n IHn]; [reflexivity|].
    rewrite seq_S, foldl_app. simpl. rewrite length_insert. exact IHn. }
  destruct (decide (j = n)) as [->|Hne].
  - rewrite list_lookup_insert_eq by lia.
    rewrite bool_decide_eq_true_2 by lia. reflexivity.
  - rewrite list_lookup_insert_ne by congruence. rewrite IH by lia.
    destruct (decide (j < n)%nat).
    + rewrite !bool_decide_eq_true_2 by lia. reflexivity.
    + rewrite !bool_decide_eq_false_2 by lia. reflexivity.
Qed.

Lemma fill_length (f : nat -> Z) (ps : list Z) n :
  length (foldl (fun ps i => <[i := f i]> ps) ps (seq 0 n)) = length ps.
Proof.
  induction n as [|n IH]; [reflexivity|].
  rewrite seq_S, foldl_app. simpl. rewrite length_insert. exact IH.
Qed.

(** [setPitchLength] within the buffer *)
Lemma setPitchLength_within draw len st :
  0 <= len <= Z.of_nat (length (pitches st)) ->
  exists st',
    setPitchLength draw len st = Some st'
    /\ pitches_len st' = len
    /\ length (pitches st') = length (pitches st)
    /\ (forall i, (i < Z.to_nat len)%nat -> pitches st' !! i = Some (to_u8 (draw i)))
    /\ (forall i, (Z.to_nat len <= i)%nat -> pitches st' !! i = pitches st !! i)
    /\ pitches_idx st' = pitches_idx st
    /\ noteLength st' = noteLength st
    /\ basePitch st' = basePitch st
    /\ lastPitch st' = lastPitch st
    /\ lastLength st' = lastLength st
    /\ midi_log st' = midi_log st.
Proof.
  intros Hlen. unfold setPitchLength, randomizePitches.
  cbn [pitches_len pitches set_pitches_len].
  rewrite bool_decide_eq_true_2 by lia.
  eexists. split; [reflexivity|]. cbn [pitches_len pitches set_pitches set_pitches_len
    pitches_idx noteLength basePitch lastPitch lastLength midi_log].
  split; [reflexivity|]. split; [apply fill_length|].
  split; [|split; [|repeat split; reflexivity]].
  - intros i Hi. rewrite fill_lookup by lia.
    rewrite bool_decide_eq_true_2 by exact Hi. reflexivity.
  - intros i Hi. rewrite fill_lookup by lia.
    rewrite bool_decide_eq_false_2 by lia. reflexivity.
Qed.

(** X14: [setPitchLength] with a length that fits the buffer sets
    [pitches_len], fills that many slots from the start with the drawn
    pitches, as bytes, and leaves the other slots, the size of the buffer, the
    cursor and the note that is sounding as they were; with a length beyond
    the buffer it writes outside it and has no result. *)
Theorem setPitchLength_fills draw len st :
  (0 <= len <= Z.of_nat (length (pitches st)) ->
   exists st',
     setPitchLength draw len st = Some st'
     /\ pitches_len st' = len
     /\ length (pitches st') = length (pitches st)
     /\ (forall i, (i < Z.to_nat len)%nat -> pitches st' !! i = Some (to_u8 (draw i)))
     /\ (forall i, (Z.to_nat len <= i)%nat -> pitches st' !! i = pitches st !! i)
     /\ pitches_idx st' = pitches_idx st
     /\ noteLength st' = noteLength st
     /\ basePitch st' = basePitch st
     /\ lastPitch st' = lastPitch st
     /\ lastLength st' = lastLength st
     /\ midi_log st' = midi_log st)
  /\ (Z.of_nat (length (pitches st)) < len -> setPitchLength draw len st = None).
Proof.
  split; [apply setPitchLength_within|].
  intros Hlen. unfold setPitchLength, randomizePitches.
  cbn [pitches_len pitches set_pitches_len].
  rewrite bool_decide_eq_false_2 by lia. reflexivity.
Qed.

(** X15: a resize does not move the cursor, which may be left beyond the new
    length; all the same, with the cursor inside the buffer the next hit of
    the enabled trigger is defined and brings the cursor inside the new
    sequence. *)
Theorem hit_after_resize draw len c k st :
  0 < len <= Z.of_nat (length (pitches st)) ->
  0 <= pitches_idx st < Z.of_nat (length (pitches st)) ->
  noteLength st <> 0 ->
  isHit c = true ->
  exists st1 st',
    setPitchLength draw len st = Some st1
    /\ pitches_idx st1 = pitches_idx st
    /\ on16Callback c k st1 = Some st'
    /\ pitches_len st' = len
    /\ pitches_idx st' = to_u8 (Z.rem (pitches_idx st + 1) len)
    /\ 0 <= pitches_idx st' < len.
Proof.
  intros Hlen Hidx Hen Hhit.
  destruct (setPitchLength_within draw len st ltac:(lia))
    as (st1 & Hset & Hlen1 & Hcap1 & _ & _ & Hidx1 & Hnote1 & _).
  destruct (lookup_lt_is_Some_2 (pitches st1) (Z.to_nat (pitches_idx st1))
              ltac:(lia)) as [p Hp].
  destruct (hit_tick_effect c k st1 p ltac:(congruence) Hhit Hp ltac:(lia))
    as (st' & Htick & _ & _ & _ & Hidx' & _ & _ & Hlen' & _).
  exists st1, st'. split; [exact Hset|]. split; [exact Hidx1|].
  split; [exact Htick|]. split; [congruence|].
  rewrite Hidx', Hidx1, Hlen1. split; [reflexivity|].
  apply cursor_step; lia.
Qed.


(** X17: a disabled trigger holds its position: with [noteLength = 0] every
    run of ticks is defined, hits or not, and leaves the cursor, the pitch
    sequence and its length as they were. *)
Theorem disabled_trigger_holds_position ticks st :
  noteLength st = 0 ->
  exists st',
    run_ticks ticks st = Some st'
    /\ noteLength st' = 0
    /\ pitches_idx st' = pitches_idx st
    /\ pitches st' = pitches st
    /\ pitches_len st' = pitches_len st.
Proof.
  revert st. induction ticks as [|t ticks IH]; intros st Hlen; simpl.
  - exists st. auto.
  - destruct (disabled_tick t.1 t.2 st Hlen) as (st1 & Htick & Hlen1 & _).
    pose proof (tick_sequence t.1 t.2 st) as Hseq.
    rewrite Htick in Hseq. unfold cursor_after in Hseq. rewrite Hlen in Hseq.
    simpl in Hseq. destruct Hseq as (Hidx1 & _ & Hbuf1 & Hlen1' & _).
    injection Hidx1 as Hidx1.
    destruct (IH st1 Hlen1) as (st' & Hrun & Hnote' & Hidx' & Hbuf' & Hlen').
    exists st'. rewrite Htick. simpl. split; [exact Hrun|].
    repeat split; congruence.
Qed.

(** the cursor one hit later *)
Lemma cursor_step_mod idx len :
  0 <= idx -> 0 < len <= 255 ->
  to_u8 (Z.rem (idx + 1) len) = (idx + 1) mod len.
Proof.
  intros Hidx Hlen. rewrite Z.rem_mod_nonneg by lia.
  pose proof (Z.mod_pos_bound (idx + 1) len ltac:(lia)).
  apply to_u8_id. lia.
Qed.

(** X18: the cursor walks the pitch sequence in a cycle, one step per hit:
    on an enabled trigger with a sequence of 1 to 255 pitches inside the
    buffer and the cursor inside the sequence, every run of ticks is defined
    and leaves the cursor at its start plus the number of hits of the run,
    modulo [pitches_len]. *)
Theorem cursor_counts_hits ticks st :
  noteLength st <> 0 ->
  0 < pitches_len st <= 255 ->
  pitches_len st <= Z.of_nat (length (pitches st)) ->
  0 <= pitches_idx st < pitches_len st ->
  exists st',
    run_ticks ticks st = Some st'
    /\ pitches_idx st'
       = (pitches_idx st
          + Z.of_nat (length (filter (fun t => isHit t.1 = true) ticks)))
         mod pitches_len st.
Proof.
  revert st. induction ticks as [|t ticks IH]; intros st Hen Hlen Hcap Hidx.
  - exists st. split; [reflexivity|]. simpl.
    rewrite Z.add_0_r, Z.mod_small by lia. reflexivity.
  - destruct (tick_cursor t.1 t.2 st ltac:(lia) Hidx)
      as (st1 & Htick & Hlen1 & Hbuf1 & Hidx1).
    pose proof (tick_sequence t.1 t.2 st) as Hseq. rewrite Htick in Hseq.
    destruct Hseq as (Hcur & Hnote1 & _).
    destruct (IH st1) as (st' & Hrun & Hidx');
      [congruence | lia | rewrite Hlen1, Hbuf1; lia | lia |].
    exists st'. simpl. rewrite Htick. simpl. split; [exact Hrun|].
    rewrite Hidx', Hlen1.
    unfold cursor_after in Hcur.
    destruct (noteLength st =? 0) eqn:E; [apply Z.eqb_eq in E; contradiction|].
    destruct (isHit t.1) eqn:Hhit.
    + rewrite filter_cons_True by exact Hhit. simpl length.
      destruct (pitches st !! Z.to_nat (pitches_idx st)); simpl in Hcur; [|discriminate].
      destruct (pitches_len st =? 0); [discriminate|].
      injection Hcur as Hcur. rewrite <- Hcur, cursor_step_mod by lia.
      rewrite Nat2Z.inj_succ, Z.add_mod_idemp_l by lia. f_equal. lia.
    + rewrite filter_cons_False by (rewrite Hhit; discriminate).
      injection Hcur as Hcur. rewrite <- Hcur. reflexivity.
Qed.

End TriggerFacts.



(** * Worked instances *)

Section RandomizerInstances.

Import MDRandomizer.

Local Abbreviation randomize := (randomize md_param_index).
Local Abbreviation randomize_calls := (randomize_calls md_param_index).
Local Abbreviation paramSelectMask := (paramSelectMask md_param_index).

(** the filter group selects parameters 12, 13 and 14 *)
Example select_filter_bits :
  paramSelectMask !! 0%nat = Some 28672
  /\ filter (fun i => IS_BIT_SET32 28672 (Z.of_nat i) = true) (seq 0 24)
     = [12; 13; 14]%nat.
Proof. split; reflexivity. Qed.

(** the last group selects all 24 parameters *)
Example select_all_bits : paramSelectMask !! 12%nat = Some (2 ^ 24 - 1).
Proof. reflexivity. Qed.

(** the deltas drawn for the first six iterations, amount 10 *)
Example demo_deltas :
  map (fun i => random (- 10) 10 (demo_rnd i)) (seq 0 6) = [-5; 8; 0; -8; 5; -3].
Proof. reflexivity. Qed.

(** randomizing the filter group with the deltas -8, 5 and 10: 100 - 8 = 92,
    110 + 5 = 115, and 120 + 10 clamped to 127; the three values are sent to
    the device. *)
Example randomize_filter :
  randomize (fun i => nth (i - 12) [2; 15; 20] 0) 10 0 demo_state
  = Some (mkMDState 1
            [replicate 24 0;
             [64; 0; 127; 10; 20; 30; 40; 50; 60; 70; 80; 90;
              92; 115; 127; 125; 3; 127; 64; 0; 0; 64; 32; 16];
             replicate 24 127]
            (Some demo_vector)
            [(1%nat, 12%nat, 92); (1%nat, 13%nat, 115); (1%nat, 14%nat, 127)]
            []).
Proof. reflexivity. Qed.

(** a group outside the table, a track outside the kit: no result *)
Example randomize_outside_table : randomize demo_rnd 10 13 demo_state = None.
Proof. reflexivity. Qed.

Example randomize_outside_kit :
  randomize demo_rnd 10 0 (setTrack 3 demo_state) = None.
Proof. reflexivity. Qed.

Lemma randomize_undo_restores_witness :
  exists st1 st2,
    randomize demo_rnd 10 12 demo_state = Some st1
    /\ undo st1 = Some st2
    /\ params st1 <> Some demo_vector
    /\ params st2 = Some demo_vector
    /\ machines st2 = machines demo_state.
Proof.
  destruct (randomize_undo_restores md_param_index demo_rnd 10 12 demo_state
              demo_vector)
    as (st1 & st2 & Hrand & Hundo & _ & Hps & Hkit & _);
    [lia | lia | reflexivity |].
  exists st1, st2. split; [exact Hrand|]. split; [exact Hundo|].
  split; [|split; [exact Hps | exact Hkit]].
  vm_compute in Hrand. injection Hrand as <-. vm_compute. discriminate.
Defined.

Lemma randomize_keeps_range_witness :
  Forall (fun v => 0 <= v <= 127) demo_vector
  /\ exists st' ps',
      randomize demo_rnd 100 12 demo_state = Some st'
      /\ params st' = Some ps'
      /\ length ps' = 24%nat
      /\ Forall (fun v => 0 <= v <= 127) ps'.
Proof.
  assert (Hrange : Forall (fun v => 0 <= v <= 127) demo_vector)
    by (unfold demo_vector; repeat (constructor; [lia|]); constructor).
  split; [exact Hrange|].
  apply (randomize_keeps_range md_param_index demo_rnd 100 12 demo_state demo_vector);
    [lia | lia | reflexivity | reflexivity | exact Hrange].
Defined.

(** Two [randomize] calls: the vector that [undo] brings back is the one
    left by the first call, which differs from the initial one. *)
Lemma second_randomize_overwrites_undo_witness :
  exists st1 ps1 st2 st3 st4,
    randomize demo_rnd 10 12 demo_state = Some st1
    /\ params st1 = Some ps1
    /\ ps1 <> demo_vector
    /\ randomize demo_rnd 5 0 st1 = Some st2
    /\ undo st2 = Some st3
    /\ params st3 = Some ps1
    /\ undoStack st3 = None
    /\ undo st3 = Some st4
    /\ machines st4 = machines st1.
Proof.
  destruct (second_randomize_overwrites_undo md_param_index
              demo_rnd 10 12 demo_rnd 5 0 demo_state demo_vector)
    as (st1 & ps1 & st2 & st3 & st4 & H1 & Hps1 & H2 & _ & H3 & Hps3 & _
        & Hslot & H4 & Hkit & _);
    [lia | lia | lia | lia | reflexivity |].
  exists st1, ps1, st2, st3, st4.
  repeat (split; [assumption|]).
  split; [|repeat (split; [assumption|]); assumption].
  vm_compute in H1. injection H1 as <-.
  vm_compute in Hps1. injection Hps1 as <-. discriminate.
Defined.

Lemma randomize_delta_closed_interval_witness :
  (exists st' ps' d,
      randomize demo_rnd 10 0 demo_state = Some st'
      /\ params st' = Some ps'
      /\ d = random (- 10) 10 (demo_rnd 12)
      /\ - 10 <= d <= 10
      /\ ps' !! 12%nat = Some (Z.max 0 (Z.min 127 (wrap_int (100 + d)))))
  /\ (exists rnd' st' ps',
        random (- 10) 10 (rnd' 12%nat) = 10
        /\ randomize rnd' 10 0 demo_state = Some st'
        /\ params st' = Some ps'
        /\ ps' !! 12%nat = Some (Z.max 0 (Z.min 127 (wrap_int (100 + 10))))).
Proof.
  destruct (randomize_delta_closed_interval md_param_index demo_rnd 10 0%nat 28672
              demo_state demo_vector 12%nat 100)
    as (Hdrawn & Hevery & _);
    [unfold INT_MAX; lia | lia | reflexivity | reflexivity | reflexivity | lia
    | reflexivity |].
  split; [exact Hdrawn|]. apply Hevery. lia.
Defined.

Lemma undo_empty_slot_fails_witness :
  undoStack demo_state = None
  /\ exists st',
      undo demo_state = Some st'
      /\ gui_log st'
         = gui_log demo_state ++ [setLine LINE1; flash_p_string_fill "UNDO XXX"]
      /\ machines st' = machines demo_state
      /\ setTrackParam_log st' = setTrackParam_log demo_state.
Proof.
  split; [reflexivity|].
  destruct (undo_empty_slot_fails demo_state eq_refl)
    as (st' & Hundo & Hgui & Hkit & _ & Hlog & _).
  exists st'. auto.
Defined.

Lemma setTrack_clears_undo_witness :
  exists st,
    randomize_calls [(demo_rnd, 10, 12%nat); (demo_rnd, 5, 0%nat)] demo_state = Some st
    /\ undoStack st <> None
    /\ undoStack (setTrack 2 st) = None
    /\ exists st',
        undo (setTrack 2 st) = Some st'
        /\ gui_log st' = gui_log st ++ [setLine LINE1; flash_p_string_fill "UNDO XXX"]
        /\ machines st' = machines st
        /\ setTrackParam_log st' = setTrackParam_log st
        /\ track st' = 2%nat.
Proof.
  eexists. split; [vm_compute; reflexivity|].
  split; [discriminate|].
  apply (setTrack_clears_undo md_param_index
           [(demo_rnd, 10, 12%nat); (demo_rnd, 5, 0%nat)] demo_state).
  vm_compute. reflexivity.
Defined.

Lemma randomize_zero_noop_witness :
  randomize demo_rnd 0 7 demo_state = Some demo_state.
Proof. apply (randomize_zero_noop md_param_index demo_rnd 7 demo_state). lia. Defined.

(** the numbering of the examples reaches each of 0..23 *)
Lemma md_param_index_onto j :
  0 <= j < 24 -> exists p, md_param_index p = j.
Proof.
  intros Hj. assert (Hn : (Z.to_nat j < 24)%nat) by lia.
  replace j with (Z.of_nat (Z.to_nat j)) by lia.
  revert Hn. generalize (Z.to_nat j). clear. intros n Hn.
  exists (nth n md_params MODEL_P1).
  do 24 (destruct n as [|n]; [reflexivity|]). lia.
Qed.

(** with an amount near the largest [int] the sum overflows: 127 + 32767
    comes back negative and the parameter drops to 0 *)
Example randomize_sum_overflows :
  randomize_param 32767 127 65534 = 0
  /\ random (- 32767) 32767 65534 = 32767.
Proof. split; reflexivity. Qed.

Lemma aggregate_groups_are_unions_witness :
  IS_BIT_SET32 32512 12 = IS_BIT_SET32 28672 12 || IS_BIT_SET32 768 12 || IS_BIT_SET32 3072 12
  /\ IS_BIT_SET32 254 12 = IS_BIT_SET32 14 12 || IS_BIT_SET32 240 12
  /\ IS_BIT_SET32 32752 12 = IS_BIT_SET32 32512 12 || IS_BIT_SET32 240 12
  /\ IS_BIT_SET32 32766 12 = IS_BIT_SET32 32512 12 || IS_BIT_SET32 254 12.
Proof.
  apply (aggregate_groups_are_unions md_param_index
           28672 768 3072 32512 240 14 254 32752 32766 12); reflexivity.
Defined.

Lemma group_within_all_witness :
  IS_BIT_SET32 28672 13 = true /\ IS_BIT_SET32 16777215 13 = true.
Proof.
  split; [reflexivity|].
  apply (group_within_all md_param_index 0 28672 16777215 13); reflexivity.
Defined.

Lemma randomize_frame_witness :
  exists st' ps',
    randomize demo_rnd 10 0 demo_state = Some st'
    /\ params st' = Some ps'
    /\ track st' = track demo_state
    /\ gui_log st' = gui_log demo_state
    /\ length (machines st') = length (machines demo_state)
    /\ length ps' = length demo_vector
    /\ (forall t, t <> track demo_state -> machines st' !! t = machines demo_state !! t)
    /\ (forall j, IS_BIT_SET32 28672 (Z.of_nat j) = false -> ps' !! j = demo_vector !! j)
    /\ (forall j, (24 <= j)%nat -> ps' !! j = demo_vector !! j).
Proof.
  apply (randomize_frame md_param_index demo_rnd 10 0 28672 demo_state demo_vector);
    reflexivity.
Defined.

Lemma randomize_writes_through_witness :
  exists st' ps',
    randomize demo_rnd 10 0 demo_state = Some st'
    /\ params st' = Some ps'
    /\ setTrackParam_log st'
       = setTrackParam_log demo_state
         ++ map (fun i => (track demo_state, i, ps' !!! i))
                (filter (fun i => IS_BIT_SET32 28672 (Z.of_nat i) = true) (seq 0 24)).
Proof.
  apply (randomize_writes_through md_param_index demo_rnd 10 0 28672 demo_state
           demo_vector); [reflexivity | lia | reflexivity | reflexivity].
Defined.

Lemma randomize_all_clamps_everything_witness :
  ~ Forall (fun v => 0 <= v <= 127) wild_vector
  /\ exists st' ps',
      randomize demo_rnd 10 12 wild_state = Some st'
      /\ params st' = Some ps'
      /\ length ps' = 24%nat
      /\ Forall (fun v => 0 <= v <= 127) ps'.
Proof.
  split.
  - intros H. apply Forall_cons_1 in H as [H _]. lia.
  - apply (randomize_all_clamps_everything md_param_index demo_rnd 10 wild_state
             wild_vector); [exact md_param_index_onto | lia | reflexivity | reflexivity].
Defined.

Lemma randomize_moves_towards_draw_witness :
  exists st' ps' new,
    randomize demo_rnd 10 0 demo_state = Some st'
    /\ params st' = Some ps'
    /\ ps' !! 12%nat = Some new
    /\ (let sum := 100 + wrap_int (random (wrap_int (- 10)) 10 (demo_rnd 12)) in
        Z.min 100 sum <= new <= Z.max 100 sum
        /\ 0 <= new <= 127
        /\ (0 <= sum <= 127 -> new = sum)).
Proof.
  apply (randomize_moves_towards_draw md_param_index demo_rnd 10 0%nat 28672
           demo_state demo_vector 12%nat 100);
    [reflexivity | lia | reflexivity | reflexivity | lia | reflexivity | lia
    | vm_compute; discriminate].
Defined.

Lemma undo_frame_witness :
  exists st',
    undo wild_state = Some st'
    /\ track st' = track wild_state
    /\ length (machines st') = length (machines wild_state)
    /\ (forall t, t <> track wild_state -> machines st' !! t = machines wild_state !! t).
Proof. apply (undo_frame wild_state wild_vector). reflexivity. Defined.

End RandomizerInstances.

Section TriggerInstances.

Import PitchEuclid.

Local Abbreviation on16Callback := (on16Callback every_step).
Local Abbreviation run_ticks := (run_ticks every_step).

(** the constructor, a first hit, a second hit *)
Example construct_fresh : construct demo_draw (replicate 8 0) 60 = Some fresh.
Proof. reflexivity. Qed.

Example first_hit : on16Callback 0 0 fresh = Some playing.
Proof. reflexivity. Qed.

Example second_hit : on16Callback 1 1 playing = Some retriggered.
Proof. reflexivity. Qed.

(** C4 as stated fails: a trigger disabled while its note 60 is sounding
    sends the note-off of that note on the next tick. *)
Lemma disabled_trigger_sends_note_off :
  on16Callback 0 0 fresh = Some playing
  /\ noteLength (set_noteLength 0 playing) = 0
  /\ exists st',
      on16Callback 1 1 (set_noteLength 0 playing) = Some st'
      /\ midi_log st'
         = midi_log (set_noteLength 0 playing) ++ [sendNoteOff 0 60 0].
Proof.
  split; [reflexivity|]. split; [reflexivity|].
  eexists. split; reflexivity.
Qed.

Lemma disabled_trigger_only_releases_witness :
  noteLength (set_noteLength 0 playing) = 0
  /\ exists st' evs,
      run_ticks [(1, 1); (2, 2); (3, 3)] (set_noteLength 0 playing) = Some st'
      /\ midi_log st' = midi_log (set_noteLength 0 playing) ++ evs
      /\ Forall (fun e => is_note_on e = false) evs
      /\ evs = [sendNoteOff 0 60 0].
Proof.
  split; [reflexivity|].
  exact (disabled_trigger_only_releases every_step [(1, 1); (2, 2); (3, 3)]
           (set_noteLength 0 playing) eq_refl).
Defined.

Lemma note_off_precedes_note_on_witness :
  on16Callback 1 1 playing = Some retriggered
  /\ exists evs,
      midi_log retriggered = midi_log playing ++ evs
      /\ (forall pre e post,
            evs = pre ++ e :: post -> is_note_on e = true ->
            post = []
            /\ Forall (fun e' => is_note_on e' = false) pre
            /\ (lastPitch playing <= 127 ->
                pre = [sendNoteOff (mdTrack playing) (lastPitch playing) 0]))
      /\ (forall pre post,
            evs = pre ++ post ->
            (length (sounding_after pre (own_note playing)) <= 1)%nat)
      /\ sounding_after evs (own_note playing) = own_note retriggered.
Proof.
  split; [reflexivity|].
  exact (proj1 (note_off_precedes_note_on every_step) 1 1 playing retriggered eq_refl).
Defined.

Lemma pitch_cursor_needs_nonempty_sequence_witness :
  (setPitchLength demo_draw 0 playing ≫= run_ticks ([] ++ [(1, 1)])) = None
  /\ exists st',
      run_ticks [(0, 0); (1, 1); (2, 2); (3, 3); (4, 4)] fresh = Some st'
      /\ pitches_len st' = pitches_len fresh
      /\ 0 <= pitches_idx st' < pitches_len st'.
Proof.
  destruct (pitch_cursor_needs_nonempty_sequence every_step)
    as (_ & _ & Hzero & Hcursor).
  split.
  - apply (Hzero demo_draw [] 1 1 playing); [discriminate | constructor | reflexivity].
  - apply (Hcursor [(0, 0); (1, 1); (2, 2); (3, 3); (4, 4)] fresh);
      simpl; lia.
Defined.

(** a note of length 2 on a pattern that hits every fourth step: the note-off
    comes with the second tick after the hit *)
Example two_tick_note :
  midi_log <$> PitchEuclid.run_ticks every_fourth [(0, 0); (1, 1); (2, 2); (3, 3)]
                 (set_noteLength 2 fresh)
  = Some [sendNoteOn 0 60 100; sendNoteOff 0 60 0].
Proof. reflexivity. Qed.

(** a base pitch of 250: the pitch byte of the second slot is 254, too high
    to sound, and that of the third one wraps around to 1 *)
Example pitch_byte_wraps :
  midi_log <$> run_ticks [(0, 0); (1, 1); (2, 2)]
                 (mkState 0 1 [0; 4; 7; 11] 4 1 0 false 250 255 0 [])
  = Some [sendNoteOn 0 1 100; sendNoteOff 0 1 0; sendNoteOn 0 5 100].
Proof. reflexivity. Qed.

Lemma note_lasts_noteLength_ticks_witness :
  exists st',
    PitchEuclid.run_ticks every_fourth ((4, 4) :: [(5, 5); (6, 6)]) retriggered = Some st'
    /\ midi_log st'
       = midi_log retriggered
         ++ [sendNoteOff 0 64 0] ++ [sendNoteOn 0 67 100] ++ [sendNoteOff 0 67 0].
Proof.
  apply (note_lasts_noteLength_ticks every_fourth 4 4 [(5, 5); (6, 6)] retriggered 7);
    [simpl; lia | reflexivity | repeat constructor | reflexivity
    | discriminate | reflexivity | vm_compute; discriminate].
Defined.

Lemma silent_hit_cuts_and_advances_witness :
  exists st',
    on16Callback 1 1 (set_muted true playing) = Some st'
    /\ midi_log st' = midi_log playing ++ [sendNoteOff 0 60 0]
    /\ 127 < lastPitch st'
    /\ pitches_idx st' = 2.
Proof.
  apply (silent_hit_cuts_and_advances every_step 1 1 (set_muted true playing) 4);
    [discriminate | reflexivity | reflexivity | discriminate | left; reflexivity].
Defined.

Lemma muted_trigger_keeps_walking_witness :
  pitches_idx <$> run_ticks [(1, 1); (2, 2); (3, 3)] (set_muted true playing)
  = pitches_idx <$> run_ticks [(1, 1); (2, 2); (3, 3)] (set_muted false playing).
Proof.
  exact (proj2 (muted_trigger_keeps_walking every_step [(1, 1); (2, 2); (3, 3)] playing)).
Defined.

Lemma events_fit_the_uart_witness :
  exists st',
    run_ticks [(0, 0); (1, 1); (2, 2)] fresh = Some st'
    /\ exists evs,
        midi_log st' = midi_log fresh ++ evs
        /\ Forall (valid_event (mdTrack fresh)) evs.
Proof.
  eexists. split; [vm_compute; reflexivity|].
  apply (events_fit_the_uart every_step [(0, 0); (1, 1); (2, 2)] fresh);
    [simpl; lia | vm_compute; reflexivity].
Defined.

Lemma note_off_only_for_sounding_note_witness :
  exists st',
    run_ticks [(1, 1); (2, 2)] playing = Some st'
    /\ exists evs,
        midi_log st' = midi_log playing ++ evs
        /\ forall pre ch p v post,
            evs = pre ++ sendNoteOff ch p v :: post ->
            (ch, p) ∈ sounding_after pre (own_note playing).
Proof.
  eexists. split; [vm_compute; reflexivity|].
  apply (note_off_only_for_sounding_note every_step [(1, 1); (2, 2)] playing).
  vm_compute. reflexivity.
Defined.

Lemma setPitchLength_fills_witness :
  (exists st',
      setPitchLength (fun i => 300 + Z.of_nat i) 2 retriggered = Some st'
      /\ pitches st' = [44; 45; 7; 11; 0; 0; 0; 0]
      /\ pitches_idx st' = 2
      /\ lastPitch st' = 64)
  /\ setPitchLength demo_draw 9 retriggered = None.
Proof.
  destruct (setPitchLength_fills (fun i => 300 + Z.of_nat i) 2 retriggered)
    as [Hfit _].
  destruct (setPitchLength_fills demo_draw 9 retriggered) as [_ Hover].
  split; [|apply Hover; simpl; lia].
  destruct Hfit as (st' & Hset & _ & _ & _ & _ & Hidx & _ & _ & Hpitch & _);
    [simpl; lia|].
  exists st'. split; [exact Hset|]. split; [|split; [exact Hidx | exact Hpitch]].
  vm_compute in Hset. injection Hset as <-. reflexivity.
Defined.

Lemma hit_after_resize_witness :
  exists st1 st',
    setPitchLength demo_draw 2 retriggered = Some st1
    /\ pitches_idx st1 = 2
    /\ on16Callback 2 2 st1 = Some st'
    /\ pitches_len st' = 2
    /\ pitches_idx st' = to_u8 (Z.rem (2 + 1) 2)
    /\ 0 <= pitches_idx st' < 2.
Proof.
  apply (hit_after_resize every_step demo_draw 2 2 2 retriggered);
    [simpl; lia | simpl; lia | discriminate | reflexivity].
Defined.


Lemma disabled_trigger_holds_position_witness :
  exists st',
    run_ticks [(1, 1); (2, 2); (3, 3)] (set_noteLength 0 playing) = Some st'
    /\ noteLength st' = 0
    /\ pitches_idx st' = 1
    /\ pitches st' = pitches playing
    /\ pitches_len st' = 4.
Proof.
  apply (disabled_trigger_holds_position every_step [(1, 1); (2, 2); (3, 3)]
           (set_noteLength 0 playing)).
  reflexivity.
Defined.

(** five hits on a sequence of four: the cursor is back at 1 *)
Lemma cursor_counts_hits_witness :
  exists st',
    run_ticks [(0, 0); (1, 1); (2, 2); (3, 3); (4, 4)] fresh = Some st'
    /\ pitches_idx st' = (0 + 5) mod 4.
Proof.
  apply (cursor_counts_hits every_step [(0, 0); (1, 1); (2, 2); (3, 3); (4, 4)] fresh);
    [discriminate | simpl; lia | simpl; lia | simpl; lia].
Defined.

End TriggerInstances.
